(** * rename_spanish_mp3.py: the title extractor and the batch planner

    A shallow embedding of [Python/rename_spanish_mp3.py].  A Python [str] is
    the list of its Unicode code points.  The regular expressions of the
    program are written with a handful of backtracking combinators in
    continuation-passing style, so that every pattern keeps the shape it has
    in the source and greedy matching with backtracking is what runs. *)

From Stdlib Require Import ZArith List Bool Lia Arith Permutation.
From Stdlib Require String Ascii DecimalNat.
Import ListNotations String.StringSyntax.
Delimit Scope string_scope with string.
Open Scope Z_scope.

(** ** Strings *)

Definition char := Z.
Definition str := list char.

(** An ASCII literal of the source as a list of code points. *)
Definition of_ascii (s : String.string) : str :=
  List.map (fun a => Z.of_nat (Ascii.nat_of_ascii a)) (String.list_ascii_of_string s).
Arguments of_ascii s%_string.

Definition between (lo hi c : char) : bool := (lo <=? c) && (c <=? hi).

Definition str_eqb (a b : str) : bool :=
  if list_eq_dec Z.eq_dec a b then true else false.

Fixpoint startswith (pre s : str) : bool :=
  match pre, s with
  | [], _ => true
  | _ :: _, [] => false
  | a :: pre', c :: s' => (a =? c) && startswith pre' s'
  end.

(** [needle in hay] *)
Fixpoint contains (needle hay : str) : bool :=
  startswith needle hay ||
  match hay with
  | [] => false
  | _ :: hay' => contains needle hay'
  end.

Fixpoint lstrip_with (p : char -> bool) (s : str) : str :=
  match s with
  | [] => []
  | c :: s' => if p c then lstrip_with p s' else s
  end.

Definition rstrip_with (p : char -> bool) (s : str) : str :=
  List.rev (lstrip_with p (List.rev s)).

(** [s.strip(chars)], and [s.strip()] when [p] is the whitespace test. *)
Definition strip_with (p : char -> bool) (s : str) : str :=
  rstrip_with p (lstrip_with p s).

(** [s.replace(a, b)] for one-character [a] and [b]. *)
Definition replace_char (a b : char) (s : str) : str :=
  List.map (fun c => if c =? a then b else c) s.

(** [s'] is what is left of [s] after some of its first characters. *)
Definition suffix (s' s : str) : Prop := exists pre, s = pre ++ s'.

(** The first, and the last, character of [s] is in the class [p]. *)
Definition starts_with (p : char -> bool) (s : str) : bool :=
  match s with
  | c :: _ => p c
  | [] => false
  end.

Definition ends_with (p : char -> bool) (s : str) : bool :=
  starts_with p (List.rev s).

(** Lexicographic [<] on lists, as Python compares strings, lists and
    tuples. *)
Fixpoint lex_ltb {A} (ltb eqb : A -> A -> bool) (a b : list A) : bool :=
  match a, b with
  | _, [] => false
  | [], _ :: _ => true
  | x :: a', y :: b' => ltb x y || (eqb x y && lex_ltb ltb eqb a' b')
  end.

(** Python's [<] on strings: code point by code point, a proper prefix
    first. *)
Definition str_ltb : str -> str -> bool := lex_ltb Z.ltb Z.eqb.

(** ** Sorting

    [sorted(l)] and [list.sort()] are stable.  The model is the stable
    insertion sort: an element goes in front of the first one that is not
    smaller than it, so equal elements keep their order. *)
Section Sorting.
Context {A : Type} (ltb : A -> A -> bool).

Fixpoint insert_sorted (x : A) (l : list A) : list A :=
  match l with
  | [] => [x]
  | y :: l' => if ltb y x then y :: insert_sorted x l' else x :: l
  end.

Fixpoint sorted (l : list A) : list A :=
  match l with
  | [] => []
  | x :: l' => insert_sorted x (sorted l')
  end.
End Sorting.

(** [l.sort(reverse=True)]: stable too, the order reversed. *)
Definition sorted_reverse {A} (ltb : A -> A -> bool) (l : list A) : list A :=
  sorted (fun a b => ltb b a) l.

(** ** Exceptions *)

Inductive exn :=
| IndexError
| FileNotFoundError
| NotADirectoryError
| UnicodeEncodeError
| OSError.

(** [OutOfFuel] is not a Python outcome: it is what the model of a [while]
    loop answers when the fuel it was given does not reach the [break]. *)
Inductive result (A : Type) :=
| Ok (a : A)
| Raise (e : exn)
| OutOfFuel.
Arguments Ok {A} a.
Arguments Raise {A} e.
Arguments OutOfFuel {A}.

Definition bind {A B} (m : result A) (f : A -> result B) : result B :=
  match m with
  | Ok a => f a
  | Raise e => Raise e
  | OutOfFuel => OutOfFuel
  end.

Declare Scope py_scope.
Delimit Scope py_scope with py.
Notation "x <- m ;; k" := (bind m (fun x => k))
  (at level 61, m at next level, right associativity) : py_scope.
Open Scope py_scope.

(** [xs[0]] *)
Definition index0 {A} (xs : list A) : result A :=
  match xs with
  | [] => Raise IndexError
  | x :: _ => Ok x
  end.

Fixpoint mapM {A B} (f : A -> result B) (xs : list A) : result (list B) :=
  match xs with
  | [] => Ok []
  | x :: xs' => y <- f x ;; ys <- mapM f xs' ;; Ok (y :: ys)
  end.

(** ** Regular expressions *)

Module Re.

(** A continuation sees the character before the current position ([None]
  at the start of the string) and the rest of the string. *)
Definition cont (A : Type) := option char -> str -> option A.

Section Combinators.
Context {A : Type}.

(** One character of a class. *)
Definition one (p : char -> bool) (k : cont A) : cont A :=
  fun prev s =>
    match s with
    | c :: s' => if p c then k (Some c) s' else None
    | [] => None
    end.

(** [p*], greedy: the longest run first, then shorter ones. *)
Fixpoint star (p : char -> bool) (k : cont A) (prev : option char) (s : str)
  : option A :=
  match s with
  | c :: s' =>
      if p c then
        match star p k (Some c) s' with
        | Some r => Some r
        | None => k prev s
        end
      else k prev s
  | [] => k prev s
  end.

(** [p+] *)
Definition plus (p : char -> bool) (k : cont A) : cont A :=
  one p (star p k).

(** [p{n}] *)
Fixpoint exactly (n : nat) (p : char -> bool) (k : cont A) : cont A :=
  match n with
  | O => k
  | S n' => one p (exactly n' p k)
  end.

(** [p{0,n}], greedy. *)
Fixpoint upto (n : nat) (p : char -> bool) (k : cont A)
  (prev : option char) (s : str) : option A :=
  match n with
  | O => k prev s
  | S n' =>
      match s with
      | c :: s' =>
          if p c then
            match upto n' p k (Some c) s' with
            | Some r => Some r
            | None => k prev s
            end
          else k prev s
      | [] => k prev s
      end
  end.

(** [^] without MULTILINE: only at the start of the string. *)
Definition bol (k : cont A) : cont A :=
  fun prev s => match prev with None => k prev s | Some _ => None end.

(** [$] without MULTILINE: at the end of the string, or just before a
    newline that ends the string. *)
Definition eol (k : cont A) : cont A :=
  fun prev s =>
    match s with
    | [] => k prev s
    | [c] => if c =? 10 then k prev s else None
    | _ => None
    end.

(** A literal word, character by character, compared with [eqc]. *)
Fixpoint chars (eqc : char -> char -> bool) (w : str) (k : cont A) : cont A :=
  match w with
  | [] => k
  | a :: w' => one (eqc a) (chars eqc w' k)
  end.

(** [\b] for a word-character test [w]. *)
Definition wordb (w : char -> bool) (k : cont A) : cont A :=
  fun prev s =>
    let before := match prev with Some c => w c | None => false end in
    let after := match s with c :: _ => w c | [] => false end in
    if xorb before after then k prev s else None.

(** A fragment [f] succeeds only through its continuation, called on a
    suffix of the text ([passes]), a strictly shorter one for a fragment
    with a mandatory character ([consumes]). *)
Definition passes (f : cont A -> cont A) : Prop :=
  forall k prev s x, f k prev s = Some x ->
    exists prev' s', k prev' s' = Some x /\ suffix s' s.

Definition consumes (f : cont A -> cont A) : Prop :=
  forall k prev s x, f k prev s = Some x ->
    exists prev' s', k prev' s' = Some x /\ suffix s' s
                     /\ (length s' < length s)%nat.

End Combinators.

(** The pattern as a whole: the continuation that accepts. *)
Definition accept : cont str := fun _ rest => Some rest.

Definition pattern := cont str -> cont str.

(** Length of the match of [r] at the current position, if it matches. *)
Definition match_at (r : pattern) (prev : option char) (s : str) : option nat :=
  match r accept prev s with
  | Some rest => Some (length s - length rest)%nat
  | None => None
  end.

(** None of the patterns of this program can match the empty string (each
    has a mandatory character), so a zero-length answer is handled as no
    match and the empty-match rules of [re] are left out.

    [skip] counts the characters of the current match still to be passed. *)
Fixpoint sub_from (r : pattern) (repl : str) (prev : option char) (skip : nat)
  (s : str) : str :=
  match s with
  | [] => []
  | c :: s' =>
      match skip with
      | S n => sub_from r repl (Some c) n s'
      | O =>
          match match_at r prev s with
          | Some (S n) => repl ++ sub_from r repl (Some c) n s'
          | _ => c :: sub_from r repl (Some c) O s'
          end
      end
  end.

(** [re.sub(r, repl, s)] *)
Definition sub (r : pattern) (repl s : str) : str := sub_from r repl None O s.

Fixpoint findall_from (r : pattern) (prev : option char) (skip : nat) (s : str)
  : list str :=
  match s with
  | [] => []
  | c :: s' =>
      match skip with
      | S n => findall_from r (Some c) n s'
      | O =>
          match match_at r prev s with
          | Some (S n) => firstn (S n) s :: findall_from r (Some c) n s'
          | _ => findall_from r (Some c) O s'
          end
      end
  end.

(** [re.findall(r, s)] for a pattern without groups. *)
Definition findall (r : pattern) (s : str) : list str := findall_from r None O s.

(** [cur] is the piece being collected, last character first. *)
Fixpoint split_from (r : pattern) (prev : option char) (skip : nat)
  (cur : str) (s : str) : list str :=
  match s with
  | [] => [rev cur]
  | c :: s' =>
      match skip with
      | S n => split_from r (Some c) n cur s'
      | O =>
          match match_at r prev s with
          | Some (S n) => rev cur :: split_from r (Some c) n [] s'
          | _ => split_from r (Some c) O (c :: cur) s'
          end
      end
  end.

(** [re.split(r, s)] for a pattern without groups. *)
Definition split (r : pattern) (s : str) : list str := split_from r None O [] s.

End Re.

(** ** Paths and the disk

    A path is the directory it lies in, as the list of its components, and
    its last component.  Two paths are equal when their components are
    (pathlib on POSIX). *)

Record path := Path { parent : list str; name : str }.

Definition with_name (p : path) (n : str) : path := Path (parent p) n.

Definition dir_eqb (a b : list str) : bool :=
  if list_eq_dec (list_eq_dec Z.eq_dec) a b then true else false.

Definition path_eqb (p q : path) : bool :=
  dir_eqb (parent p) (parent q) && str_eqb (name p) (name q).

(** Paths are ordered as the lists of their components. *)
Definition path_ltb (p q : path) : bool :=
  lex_ltb str_ltb str_eqb (parent p ++ [name p]) (parent q ++ [name q]).

Fixpoint is_prefix (a b : list str) : bool :=
  match a, b with
  | [], _ => true
  | _ :: _, [] => false
  | x :: a', y :: b' => str_eqb x y && is_prefix a' b'
  end.

(** The characters up to the first dot, and what follows that dot. *)
Fixpoint until_dot (s : str) : str * option str :=
  match s with
  | [] => ([], None)
  | c :: s' =>
      if c =? 46 then ([], Some s')
      else let (a, b) := until_dot s' in (c :: a, b)
  end.

(** [(p.stem, p.suffix)] of a name: the name is cut at its last dot when
    that dot is neither its first nor its last character. *)
Definition stem_suffix (n : str) : str * str :=
  match until_dot (List.rev n) with
  | (e :: ext, Some (r :: rest)) =>
      (List.rev (r :: rest), 46 :: List.rev (e :: ext))
  | _ => (n, [])
  end.

Definition stem (p : path) : str := fst (stem_suffix (name p)).
Definition suffix_of (p : path) : str := snd (stem_suffix (name p)).

(** What the directory tree holds: every file and directory in it. *)
Record entry := Entry { e_path : path; e_is_file : bool }.

Definition disk := list entry.

(** [p.exists()], when the [stat] behind it raises nothing; [probe] below
    has the exceptions. *)
Definition path_exists (d : disk) (p : path) : bool :=
  existsb (fun e => path_eqb (e_path e) p) d.

(** [src.rename(dst)] on POSIX, for a file: [None] is the OSError of a
    missing source or of a directory in the way; a file in the way is
    replaced.  What else the operating system refuses (permissions, a name
    that is too long, another device) is in [rename_os] below. *)
Definition rename (d : disk) (src dst : path) : option disk :=
  if negb (existsb (fun e => path_eqb (e_path e) src && e_is_file e) d) then None
  else if existsb (fun e => path_eqb (e_path e) dst && negb (e_is_file e)) d then None
  else if path_eqb src dst then Some d
  else Some (List.map (fun e => if path_eqb (e_path e) src
                                then Entry dst (e_is_file e) else e)
                      (List.filter (fun e => negb (path_eqb (e_path e) dst)) d)).

(** [str(n)] for a natural number. *)
Fixpoint digits (u : Decimal.uint) : str :=
  match u with
  | Decimal.Nil => []
  | Decimal.D0 u => 48 :: digits u
  | Decimal.D1 u => 49 :: digits u
  | Decimal.D2 u => 50 :: digits u
  | Decimal.D3 u => 51 :: digits u
  | Decimal.D4 u => 52 :: digits u
  | Decimal.D5 u => 53 :: digits u
  | Decimal.D6 u => 54 :: digits u
  | Decimal.D7 u => 55 :: digits u
  | Decimal.D8 u => 56 :: digits u
  | Decimal.D9 u => 57 :: digits u
  end.

Definition str_of_nat (n : nat) : str := digits (Nat.to_uint n).

(** What is printed and logged.  The wording of a line is not modelled,
    what it reports is. *)
Inductive line :=
| Found (n : nat)
| SkipSame (src_name : str)
| Arrow (src_name dst_name : str)
| MappingSaved
| DryRunComplete
| FailedRename (src dst : path)
| RenameComplete (renamed : nat).

Inductive csv_row :=
| Header
| Row (old_path new_path : path).

(** The directory tree, what was printed (oldest line first) and the
    content of [rename_map.csv], if it was written. *)
Record world := World {
  w_disk : disk;
  w_stdout : list line;
  w_log : option (list csv_row)
}.

Definition print (l : line) (w : world) : world :=
  World (w_disk w) (w_stdout w ++ [l]) (w_log w).

Definition write_log (rows : list csv_row) (w : world) : world :=
  World (w_disk w) (w_stdout w) (Some rows).

Definition set_disk (d : disk) (w : world) : world :=
  World d (w_stdout w) (w_log w).

(** A directory with two files that clean to the same title. *)
Definition sample_disk : disk :=
  [ Entry (Path [of_ascii "music"] (of_ascii "Episode [a].mp3")) true;
    Entry (Path [of_ascii "music"] (of_ascii "Episode [b].mp3")) true ].

(** A directory with a file whose name is clean already, and one that
    cleans to the same title. *)
Definition clean_disk : disk :=
  [ Entry (Path [of_ascii "music"] (of_ascii "Episode.mp3")) true;
    Entry (Path [of_ascii "music"] (of_ascii "Episode [x].mp3")) true ].

(** Two files with names of 252 bytes that clean to the same title: the
    second can only be planned onto a name of 256 bytes. *)
Definition long_disk : disk :=
  [ Entry (Path [of_ascii "music"]
             (of_ascii "a b" ++ repeat 120 245 ++ of_ascii ".mp3")) true;
    Entry (Path [of_ascii "music"]
             (of_ascii "a_b" ++ repeat 120 245 ++ of_ascii ".mp3")) true ].

(** A file whose name starts with a byte that is not UTF-8: Python reads
    the byte 0x80 as the lone surrogate U+DC80. *)
Definition surrogate_disk : disk :=
  [ Entry (Path [of_ascii "music"] (0xDC80 :: of_ascii ".mp3")) true ].

(** ** The Unicode database

    What Python knows about a character outside ASCII comes from the Unicode
    tables of the interpreter, which are not part of the program: they are
    parameters.  Inside ASCII every test is written out. *)

Definition is_ascii (c : char) : bool := c <? 128.

Definition ascii_isspace (c : char) : bool := between 9 13 c || between 28 32 c.
Definition ascii_isdecimal (c : char) : bool := between 48 57 c.
Definition ascii_isupper (c : char) : bool := between 65 90 c.
Definition ascii_isalnum (c : char) : bool :=
  between 48 57 c || between 65 90 c || between 97 122 c.
Definition ascii_lower (c : char) : char :=
  if between 65 90 c then c + 32 else c.

(** What the interpreter's tables say outside ASCII. *)
Class UnicodeData := {
  (** [str.isspace], which is also [\s] and what [strip()] removes. *)
  uni_isspace : char -> bool;
  (** [str.isalnum]: with the underscore, [\w]. *)
  uni_isalnum : char -> bool;
  (** [\d] *)
  uni_isdecimal : char -> bool;
  (** [str.isupper] of a one-character string. *)
  uni_isupper : char -> bool;
  (** [str.lower] of a string that is not pure ASCII. *)
  uni_lower : str -> str;
  (** Whether a character outside ASCII matches a lower-case ASCII letter of
      a pattern under [re.IGNORECASE]. *)
  uni_caseless : char -> char -> bool
}.

(** The tables that know no character outside ASCII. *)
Definition ascii_only : UnicodeData := {|
  uni_isspace := fun _ => false;
  uni_isalnum := fun _ => false;
  uni_isdecimal := fun _ => false;
  uni_isupper := fun _ => false;
  uni_lower := fun s => s;
  uni_caseless := fun _ _ => false
|}.

Section Program.
Context {U : UnicodeData}.

Definition isspace (c : char) : bool :=
  if is_ascii c then ascii_isspace c else uni_isspace c.
Definition isalnum (c : char) : bool :=
  if is_ascii c then ascii_isalnum c else uni_isalnum c.
Definition isdecimal (c : char) : bool :=
  if is_ascii c then ascii_isdecimal c else uni_isdecimal c.
Definition isupper (c : char) : bool :=
  if is_ascii c then ascii_isupper c else uni_isupper c.
Definition lower (s : str) : str :=
  if forallb is_ascii s then List.map ascii_lower s else uni_lower s.
Definition caseless (p c : char) : bool :=
  if is_ascii c then ascii_lower c =? p else uni_caseless p c.

(** [\w] *)
Definition isword (c : char) : bool := isalnum c || (c =? 95).
(** [[^\w\d]] *)
Definition nonword (c : char) : bool := negb (isword c || isdecimal c).

(** [s.strip()] *)
Definition strip (s : str) : str := strip_with isspace s.

(** *** Helpers *)

Definition is_emoji (c : char) : bool :=
  between 0x1F300 0x1F5FF c || between 0x1F600 0x1F64F c ||
  between 0x1F680 0x1F6FF c || between 0x1F700 0x1F77F c ||
  between 0x1F780 0x1F7FF c || between 0x1F800 0x1F8FF c ||
  between 0x1F900 0x1F9FF c || between 0x1FA00 0x1FA6F c ||
  between 0x1FA70 0x1FAFF c || between 0x2600 0x26FF c ||
  between 0x2700 0x27BF c.

Definition EMOJI_PATTERN : Re.pattern := Re.plus is_emoji.

(** [how\s*to\s*spanish\s*podcast], IGNORECASE *)
Definition known_tag_re : Re.pattern := fun k =>
  Re.chars caseless (of_ascii "how") (Re.star isspace (
  Re.chars caseless (of_ascii "to") (Re.star isspace (
  Re.chars caseless (of_ascii "spanish") (Re.star isspace (
  Re.chars caseless (of_ascii "podcast") k)))))).

Definition remove_known_tags (s : str) : str := Re.sub known_tag_re [] s.

Definition remove_emojis (s : str) : str := Re.sub EMOJI_PATTERN [] s.

Definition is_char (a c : char) : bool := c =? a.
Definition not_char (a c : char) : bool := negb (c =? a).

(** [\[[^\]]*\]] *)
Definition square_re : Re.pattern := fun k =>
  Re.one (is_char 91) (Re.star (not_char 93) (Re.one (is_char 93) k)).
(** [\s*\([^)]*\)\s*$] *)
Definition trailing_paren_re : Re.pattern := fun k =>
  Re.star isspace (Re.one (is_char 40) (Re.star (not_char 41) (
  Re.one (is_char 41) (Re.star isspace (Re.eol k))))).
(** [\([^)]*\)] *)
Definition paren_re : Re.pattern := fun k =>
  Re.one (is_char 40) (Re.star (not_char 41) (Re.one (is_char 41) k)).

Definition strip_brackets_and_parentheses (s : str) : str :=
  let s := Re.sub square_re [] s in
  let s := Re.sub trailing_paren_re [] s in
  let s := Re.sub paren_re [32] s in
  s.

(** [^[^\w\d]+] *)
Definition leading_noise_re : Re.pattern := fun k =>
  Re.bol (Re.plus nonword k).
Definition strip_leading_noise (s : str) : str := Re.sub leading_noise_re [] s.

(** [[^\w\d]+$] *)
Definition trailing_noise_re : Re.pattern := fun k =>
  Re.plus nonword (Re.eol k).
Definition strip_trailing_noise (s : str) : str := Re.sub trailing_noise_re [] s.

(** *** choose_best_segment *)

(** [[A-Za-zÀ-ÖØ-öø-ÿ]] *)
Definition latin_letter (c : char) : bool :=
  between 65 90 c || between 97 122 c || between 0xC0 0xD6 c ||
  between 0xD8 0xF6 c || between 0xF8 0xFF c.

(** [\b\w+\b] *)
Definition word_re : Re.pattern := fun k =>
  Re.wordb isword (Re.plus isword (Re.wordb isword k)).

Definition TAGS : list str :=
  List.map of_ascii ["listening"; "spanish"; "audio"; "podcast"; "lecture"; "mp3"]%string.

Definition score (seg : str) : result Z :=
  let alpha_count := Z.of_nat (length (Re.findall (Re.one latin_letter) seg)) in
  firsts <- mapM index0 (Re.findall word_re seg) ;;
  let title_words := Z.of_nat (length (List.filter isupper firsts)) in
  let tag_penalty :=
    fold_left (fun pen tag => if contains tag (lower seg) then pen + 5 else pen)
              TAGS 0 in
  Ok (alpha_count + title_words * 5 - tag_penalty).

(** Python's [<] on the tuples [(score, segment)]. *)
Definition pair_ltb (a b : Z * str) : bool :=
  (fst a <? fst b) || ((fst a =? fst b) && str_ltb (snd a) (snd b)).

Definition choose_best_segment (segments : list str) : result str :=
  scored <- mapM (fun s => sc <- score s ;; Ok (sc, strip s)) segments ;;
  match sorted_reverse pair_ltb scored with
  | [] => Ok []
  | (_, best) :: _ => Ok best
  end.

(** *** The last cleaning stages *)

(** The characters of [" -–—_:;,."] *)
Definition edge_punct (c : char) : bool :=
  (c =? 32) || (c =? 45) || (c =? 0x2013) || (c =? 0x2014) || (c =? 95) ||
  (c =? 58) || (c =? 59) || (c =? 44) || (c =? 46).

Definition sanitize_whitespace_and_punct (s : str) : str :=
  let s := strip (Re.sub (Re.plus isspace) [32] s) in
  let s := strip_with edge_punct s in
  s.

(** The class of [make_safe_filename]: the characters < > : / \ | ? * and
    the double quote, and the control characters U+0000 to U+001F. *)
Definition unsafe_char (c : char) : bool :=
  (c =? 60) || (c =? 62) || (c =? 58) || (c =? 34) || (c =? 47) ||
  (c =? 92) || (c =? 124) || (c =? 63) || (c =? 42) || between 0 31 c.

Definition safe_char (c : char) : bool := negb (unsafe_char c).

Definition make_safe_filename (s : str) : str :=
  let s := Re.sub (Re.one unsafe_char) [] s in
  let s := strip s in
  s.

(** *** extract_title *)

(** [' - ' in s or ' — ' in s or ' – ' in s or ':' in s] *)
Definition has_separator (s : str) : bool :=
  contains [32; 45; 32] s || contains [32; 0x2014; 32] s ||
  contains [32; 0x2013; 32] s || contains [58] s.

(** [\s[-—–:]\s] *)
Definition separator_re : Re.pattern := fun k =>
  Re.one isspace (Re.one (fun c => (c =? 45) || (c =? 0x2014) ||
                                   (c =? 0x2013) || (c =? 58))
                 (Re.one isspace k)).

Definition upper_AZ (c : char) : bool := between 65 90 c.
Definition ascii_letter (c : char) : bool := between 65 90 c || between 97 122 c.
(** [.] without DOTALL *)
Definition dot (c : char) : bool := negb (c =? 10).

(** [re.match(r'^([A-Z]{2,20})(\s+.+)$', s)]: the text of group 2 when the
    pattern matches.  Group 2 runs from where group 1 stopped ([r1]) to
    where [$] matched ([r2]). *)
Definition match_caps_prefix (s : str) : option str :=
  Re.bol (Re.exactly 2 upper_AZ (Re.upto 18 upper_AZ (fun prev1 r1 =>
    Re.plus isspace (Re.plus dot (Re.eol (fun _ r2 =>
      Some (firstn (length r1 - length r2) r1)))) prev1 r1)))
    None s.

(** [len(re.findall(r'[A-Za-z]', s))] *)
Definition count_letters (s : str) : nat :=
  length (Re.findall (Re.one ascii_letter) s).

Definition drop_caps_prefix (s : str) : str :=
  match match_caps_prefix s with
  | Some group2 =>
      let candidate := strip group2 in
      if (count_letters s <? count_letters candidate)%nat then candidate else s
  | None => s
  end.

Definition extract_title (filename_no_ext : str) : result str :=
  let s := filename_no_ext in
  let s := replace_char 95 32 s in
  let s := remove_emojis s in
  let s := remove_known_tags s in
  let s := strip_brackets_and_parentheses s in
  let s := strip_leading_noise s in
  s <- (if has_separator s
        then
          let parts := Re.split separator_re s in
          best <- choose_best_segment parts ;;
          Ok best
        else Ok (drop_caps_prefix s)) ;;
  let s := remove_emojis s in
  let s := sanitize_whitespace_and_punct s in
  let s := strip_trailing_noise s in
  let s := make_safe_filename s in
  let s := match s with [] => make_safe_filename filename_no_ext | _ => s end in
  Ok s.

(** The same function with the all-caps-prefix branch deleted. *)
Definition extract_title_without_caps_branch (filename_no_ext : str) : result str :=
  let s := filename_no_ext in
  let s := replace_char 95 32 s in
  let s := remove_emojis s in
  let s := remove_known_tags s in
  let s := strip_brackets_and_parentheses s in
  let s := strip_leading_noise s in
  s <- (if has_separator s
        then
          let parts := Re.split separator_re s in
          best <- choose_best_segment parts ;;
          Ok best
        else Ok s) ;;
  let s := remove_emojis s in
  let s := sanitize_whitespace_and_punct s in
  let s := strip_trailing_noise s in
  let s := make_safe_filename s in
  let s := match s with [] => make_safe_filename filename_no_ext | _ => s end in
  Ok s.

(** *** main *)

Definition EXTENSIONS : list str :=
  List.map of_ascii [".mp3"; ".m4a"; ".wav"; ".aac"]%string.

Definition in_extensions (ext : str) : bool := existsb (str_eqb ext) EXTENSIONS.

(** The files of [directory.iterdir()], or of [directory.rglob('*')],
    that pass [p.is_file() and p.suffix.lower() in EXTENSIONS]. *)
Definition discover (d : disk) (directory : list str) (recursive : bool)
  : list path :=
  List.map e_path
    (List.filter
       (fun e =>
          (if recursive then is_prefix directory (parent (e_path e))
           else dir_eqb directory (parent (e_path e)))
          && e_is_file e && in_extensions (lower (suffix_of (e_path e))))
       d).

(** [seen_new_names]: the last binding of a key is in front. *)
Definition seen_get (seen : list (str * nat)) (key : str) (default : nat) : nat :=
  match List.find (fun kv => str_eqb (fst kv) key) seen with
  | Some kv => snd kv
  | None => default
  end.

Definition seen_set (seen : list (str * nat)) (key : str) (v : nat)
  : list (str * nat) := (key, v) :: seen.

(** [f"{base} ({count}){ext}"] *)
Definition numbered (base : str) (count : nat) (ext : str) : str :=
  base ++ [32; 40] ++ str_of_nat count ++ [41] ++ ext.

(** [any(dst == candidate_path for _, dst in mapping
         if dst.parent == p.parent and dst != p)] *)
Definition planned (mapping : list (path * path)) (p candidate_path : path) : bool :=
  existsb (fun sd => path_eqb (snd sd) candidate_path)
    (List.filter (fun sd => dir_eqb (parent (snd sd)) (parent p)
                            && negb (path_eqb (snd sd) p))
                 mapping).

(** The [while True] loop, from its first line: the answer is the
    counter and the candidate name at the [break]. *)
Fixpoint resolve (fuel : nat) (d : disk) (mapping : list (path * path))
  (p : path) (new_title ext : str) (count : nat) (candidate_name : str)
  : result (nat * str) :=
  match fuel with
  | O => OutOfFuel
  | S fuel' =>
      let candidate_path := with_name p candidate_name in
      if path_exists d candidate_path && negb (path_eqb candidate_path p) then
        let count := S count in
        let base := new_title in
        resolve fuel' d mapping p new_title ext count (numbered base count ext)
      else if planned mapping p candidate_path then
        let count := S count in
        let base := new_title in
        resolve fuel' d mapping p new_title ext count (numbered base count ext)
      else Ok (count, candidate_name)
  end.

(** The two tests of the loop that send it round again, as one. *)
Definition blocked (d : disk) (mapping : list (path * path)) (p : path)
  (candidate_name : str) : bool :=
  let candidate_path := with_name p candidate_name in
  (path_exists d candidate_path && negb (path_eqb candidate_path p))
  || planned mapping p candidate_path.

(** The paths a candidate can be refused for: those on the disk and the
    destinations planned so far. *)
Definition occupied (d : disk) (mapping : list (path * path)) : list path :=
  List.map e_path d ++ List.map snd mapping.

(** No two entries with distinct sources have the same destination. *)
Definition collision_free (mapping : list (path * path)) : Prop :=
  forall src1 dst1 src2 dst2,
    In (src1, dst1) mapping -> In (src2, dst2) mapping ->
    src1 <> src2 -> dst1 <> dst2.

(** A destination that exists on the disk is the entry's own source. *)
Definition overwrites_nothing (d : disk) (mapping : list (path * path)) : Prop :=
  forall src dst, In (src, dst) mapping -> path_exists d dst = true -> dst = src.

(** The [for p in sorted(files)] loop.  [fuel] is what every run of the
    inner loop may use. *)
Fixpoint plan (fuel : nat) (d : disk) (files : list path)
  (mapping : list (path * path)) (seen_new_names : list (str * nat))
  : result (list (path * path)) :=
  match files with
  | [] => Ok mapping
  | p :: files' =>
      new_title <- extract_title (stem p) ;;
      let ext := lower (suffix_of p) in
      let new_name := new_title ++ ext in
      let count := seen_get seen_new_names new_name 0 in
      r <- resolve fuel d mapping p new_title ext count new_name ;;
      let (count, candidate_name) := r in
      let seen_new_names := seen_set seen_new_names new_name count in
      let dst_path := with_name p candidate_name in
      plan fuel d files' (mapping ++ [(p, dst_path)]) seen_new_names
  end.

Definition planning (fuel : nat) (d : disk) (directory : list str)
  (recursive : bool) : result (list (path * path)) :=
  plan fuel d (sorted path_ltb (discover d directory recursive)) [] [].

Definition preview_line (sd : path * path) : line :=
  let (src, dst) := sd in
  if path_eqb src dst then SkipSame (name src) else Arrow (name src) (name dst).

Definition log_rows (mapping : list (path * path)) : list csv_row :=
  Header :: List.map (fun sd => Row (fst sd) (snd sd)) mapping.

(** *** The segment scorer in the words of the specification *)

(** A Latin letter: an ASCII letter, or a letter of the Latin-1
    supplement (U+00C0 to U+00FF without the two signs U+00D7 and
    U+00F7). *)
Definition spec_latin_letter (c : char) : bool :=
  between 65 90 c || between 97 122 c ||
  (between 0xC0 0xFF c && negb (c =? 0xD7) && negb (c =? 0xF7)).

(** The number of words whose first character is uppercase, a word
    being a maximal run of word characters; [in_word] tells whether the
    character before is a word character. *)
Fixpoint spec_title_words (in_word : bool) (s : str) : nat :=
  match s with
  | [] => 0
  | c :: s' =>
      ((if negb in_word && isword c && isupper c then 1 else 0)
       + spec_title_words (isword c) s')%nat
  end.

(** The number of keywords that occur in the segment, case ignored. *)
Definition spec_tag_count (seg : str) : nat :=
  length (List.filter (fun tag => contains tag (lower seg)) TAGS).

Definition spec_score (seg : str) : Z :=
  Z.of_nat (length (List.filter spec_latin_letter seg))
  + 5 * Z.of_nat (spec_title_words false seg)
  - 5 * Z.of_nat (spec_tag_count seg).

(** The characters the specification calls illegal in a file name:
    [<>:/\|?*] and the double quote.  A character is legal when it is none
    of them and no control character U+0000 to U+001F. *)
Definition illegal_chars : str := [60; 62; 58; 34; 47; 92; 124; 63; 42].

Definition spec_legal (c : char) : Prop :=
  ~ In c illegal_chars /\ ~ (0 <= c <= 31).

(** The length of the run of [p] characters that [s] starts with. *)
Definition run (p : char -> bool) (s : str) : nat :=
  (length s - length (lstrip_with p s))%nat.

(** The first characters of a list of words. *)
Definition heads (ws : list str) : str := List.map (hd 0) ws.

Definition is_word_before (prev : option char) : bool :=
  match prev with
  | Some c => isword c
  | None => false
  end.

End Program.

(** ** The operating system

    What the file system answers is read off the disk.  What the operating
    system may refuse besides (a permission, a name that is too long,
    another device, a stream that is closed) is not in the program: it is a
    parameter.  Each field tells the exception a call raises, if it raises
    one. *)
Class OS := {
  (** [directory.iterdir()] and [directory.rglob('*')] *)
  os_listdir_error : list str -> option exn;
  (** the [stat] behind [p.is_file()] and [p.exists()] *)
  os_stat_error : path -> option exn;
  (** [print] *)
  os_print_error : line -> option exn;
  (** [open(MAP_CSV, 'w')] *)
  os_open_error : option exn;
  (** [writer.writerow], besides the encoding of the row *)
  os_write_error : csv_row -> option exn;
  (** [src.rename(dst)], besides a missing source and a directory in the
      way *)
  os_rename_error : path -> path -> option exn
}.

(** The operating system that refuses nothing. *)
Definition quiet_os : OS := {|
  os_listdir_error := fun _ => None;
  os_stat_error := fun _ => None;
  os_print_error := fun _ => None;
  os_open_error := None;
  os_write_error := fun _ => None;
  os_rename_error := fun _ _ => None
|}.


(** The log is opened with [encoding='utf-8']: a row is written when no
    character of its two paths is a surrogate. *)
Definition surrogate (c : char) : bool := between 0xD800 0xDFFF c.
Definition utf8_encodable (s : str) : bool :=
  forallb (fun c => negb (surrogate c)) s.
Definition path_encodable (p : path) : bool :=
  forallb utf8_encodable (parent p ++ [name p]).
Definition row_encodable (r : csv_row) : bool :=
  match r with
  | Header => true
  | Row old_path new_path => path_encodable old_path && path_encodable new_path
  end.
Definition disk_encodable (d : disk) : bool :=
  forallb (fun e => path_encodable (e_path e)) d.

(** The bytes of a character in a file name: those of UTF-8, and one for
    a lone surrogate, which stands for a byte that is not UTF-8. *)
Definition utf8_bytes (c : char) : nat :=
  if surrogate c then 1
  else if c <? 0x80 then 1
  else if c <? 0x800 then 2
  else if c <? 0x10000 then 3
  else 4.

Definition utf8_length (s : str) : nat := list_sum (List.map utf8_bytes s).

Definition NAME_MAX : nat := 255.

Definition name_too_long (p : path) : bool :=
  (NAME_MAX <? utf8_length (name p))%nat.

(** An operating system that refuses names of more than [NAME_MAX] bytes,
    with OSError(ENAMETOOLONG), and nothing else. *)
Definition name_max_os : OS := {|
  os_listdir_error := fun _ => None;
  os_stat_error := fun p => if name_too_long p then Some OSError else None;
  os_print_error := fun _ => None;
  os_open_error := None;
  os_write_error := fun _ => None;
  os_rename_error := fun _ dst => if name_too_long dst then Some OSError else None
|}.

(** [directory] is the path of the entry [e]. *)
Definition names_dir (directory : list str) (e : entry) : bool :=
  dir_eqb (parent (e_path e) ++ [name (e_path e)]) directory.

(** [directory] is a file of the disk. *)
Definition file_on_disk (d : disk) (directory : list str) : bool :=
  existsb (fun e => names_dir directory e && e_is_file e) d.

(** [directory] is a directory of the disk: the current directory, a
    directory the disk has an entry for, or one it has entries in. *)
Definition dir_on_disk (d : disk) (directory : list str) : bool :=
  match directory with
  | [] => true
  | _ => existsb (fun e => (names_dir directory e && negb (e_is_file e))
                           || is_prefix directory (parent (e_path e))) d
  end.

(** A step of the program: from a world to a world and a result. *)
Definition io (A : Type) := world -> world * result A.

Definition io_ret {A} (a : A) : io A := fun w => (w, Ok a).

Definition io_bind {A B} (m : io A) (f : A -> io B) : io B :=
  fun w =>
    match m w with
    | (w', Ok a) => f a w'
    | (w', Raise e) => (w', Raise e)
    | (w', OutOfFuel) => (w', OutOfFuel)
    end.

Notation "x <~ m ;; k" := (io_bind m (fun x => k))
  (at level 61, m at next level, right associativity) : py_scope.

(** A step that reads the disk and changes nothing. *)
Definition io_read {A} (f : disk -> result A) : io A := fun w => (w, f (w_disk w)).

Fixpoint for_each {X} (body : X -> io unit) (xs : list X) : io unit :=
  match xs with
  | [] => io_ret tt
  | x :: xs' => _ <~ body x ;; for_each body xs'
  end.

Definition check (err : option exn) : result unit :=
  match err with
  | Some e => Raise e
  | None => Ok tt
  end.

(** A step leaves the disk as it is, whatever its result. *)
Definition keeps_disk {A} (m : io A) : Prop :=
  forall w, w_disk (fst (m w)) = w_disk w.

Section Run.
Context {U : UnicodeData} {os : OS}.

(** [print(...)] *)
Definition say (l : line) : io unit :=
  fun w =>
    match os_print_error l with
    | Some e => (w, Raise e)
    | None => (print l w, Ok tt)
    end.

(** What [directory.rglob('*')] or [directory.iterdir()] yields.
    [iterdir] raises on a file and on a missing directory; [rglob] yields
    nothing there. *)
Definition listing (d : disk) (directory : list str) (recursive : bool)
  : result (list entry) :=
  _ <- check (os_listdir_error directory) ;;
  if recursive
  then Ok (List.filter (fun e => is_prefix directory (parent (e_path e))) d)
  else if file_on_disk d directory then Raise NotADirectoryError
  else if negb (dir_on_disk d directory) then Raise FileNotFoundError
  else Ok (List.filter (fun e => dir_eqb directory (parent (e_path e))) d).

(** The two [for p in ...] loops of the discovery: [p.is_file()] asks the
    operating system about every path listed. *)
Fixpoint audio_files (listed : list entry) : result (list path) :=
  match listed with
  | [] => Ok []
  | e :: rest =>
      _ <- check (os_stat_error (e_path e)) ;;
      files <- audio_files rest ;;
      Ok (if e_is_file e && in_extensions (lower (suffix_of (e_path e)))
          then e_path e :: files else files)
  end.

Definition discover_os (d : disk) (directory : list str) (recursive : bool)
  : result (list path) :=
  listed <- listing d directory recursive ;;
  audio_files listed.

(** [candidate_path.exists()] *)
Definition probe (d : disk) (p : path) : result bool :=
  _ <- check (os_stat_error p) ;;
  Ok (path_exists d p).

(** The [while True] loop, with the operating system asked at every
    turn. *)
Fixpoint resolve_os (fuel : nat) (d : disk) (mapping : list (path * path))
  (p : path) (new_title ext : str) (count : nat) (candidate_name : str)
  : result (nat * str) :=
  match fuel with
  | O => OutOfFuel
  | S fuel' =>
      let candidate_path := with_name p candidate_name in
      found <- probe d candidate_path ;;
      if found && negb (path_eqb candidate_path p) then
        let count := S count in
        let base := new_title in
        resolve_os fuel' d mapping p new_title ext count (numbered base count ext)
      else if planned mapping p candidate_path then
        let count := S count in
        let base := new_title in
        resolve_os fuel' d mapping p new_title ext count (numbered base count ext)
      else Ok (count, candidate_name)
  end.

(** The [for p in sorted(files)] loop, likewise. *)
Fixpoint plan_os (fuel : nat) (d : disk) (files : list path)
  (mapping : list (path * path)) (seen_new_names : list (str * nat))
  : result (list (path * path)) :=
  match files with
  | [] => Ok mapping
  | p :: files' =>
      new_title <- extract_title (stem p) ;;
      let ext := lower (suffix_of p) in
      let new_name := new_title ++ ext in
      let count := seen_get seen_new_names new_name 0 in
      r <- resolve_os fuel d mapping p new_title ext count new_name ;;
      let (count, candidate_name) := r in
      let seen_new_names := seen_set seen_new_names new_name count in
      let dst_path := with_name p candidate_name in
      plan_os fuel d files' (mapping ++ [(p, dst_path)]) seen_new_names
  end.

(** [writer.writerow(...)]: the rows written so far stay in the log when a
    later row raises. *)
Definition write_row (r : csv_row) : io unit :=
  fun w =>
    if negb (row_encodable r) then (w, Raise UnicodeEncodeError)
    else match os_write_error r with
         | Some e => (w, Raise e)
         | None =>
             (write_log (match w_log w with
                         | Some rows => rows ++ [r]
                         | None => [r]
                         end) w, Ok tt)
         end.

(** [open(MAP_CSV, 'w', ...)]: the log is emptied. *)
Definition open_log : io unit :=
  fun w =>
    match os_open_error with
    | Some e => (w, Raise e)
    | None => (write_log [] w, Ok tt)
    end.

Definition save_mapping (mapping : list (path * path)) : io unit :=
  _ <~ open_log ;;
  _ <~ write_row Header ;;
  for_each (fun sd => write_row (Row (fst sd) (snd sd))) mapping.

(** [src.rename(dst)]: [None] stands for any exception, which the
    [except] of the loop catches. *)
Definition rename_os (d : disk) (src dst : path) : option disk :=
  match os_rename_error src dst with
  | Some _ => None
  | None => rename d src dst
  end.

(** The [for src, dst in mapping] loop that renames; [renamed] counts. *)
Fixpoint rename_all (mapping : list (path * path)) (renamed : nat) : io nat :=
  match mapping with
  | [] => io_ret renamed
  | (src, dst) :: rest =>
      if path_eqb src dst then rename_all rest renamed
      else
        fun w =>
          match rename_os (w_disk w) src dst with
          | Some d => rename_all rest (S renamed) (set_disk d w)
          | None =>
              (_ <~ say (FailedRename src dst) ;; rename_all rest renamed) w
          end
  end.

Definition main (fuel : nat) (directory : list str) (apply recursive : bool)
  : io unit :=
  files <~ io_read (fun d => discover_os d directory recursive) ;;
  mapping <~ io_read (fun d => plan_os fuel d (sorted path_ltb files) [] []) ;;
  _ <~ say (Found (length mapping)) ;;
  _ <~ for_each (fun sd => say (preview_line sd)) mapping ;;
  _ <~ save_mapping mapping ;;
  _ <~ say MappingSaved ;;
  if negb apply then say DryRunComplete
  else
    renamed <~ rename_all mapping O ;;
    say (RenameComplete renamed).

(** The operating system refuses no listing, no [stat], no [print] and
    nothing about the log; renames it may refuse. *)
Definition quiet : Prop :=
  (forall directory, os_listdir_error directory = None)
  /\ (forall p, os_stat_error p = None)
  /\ (forall l, os_print_error l = None)
  /\ os_open_error = None
  /\ (forall r, os_write_error r = None).

(** The directory can be listed: [rglob] takes any, [iterdir] a directory
    of the disk. *)
Definition listable (d : disk) (directory : list str) (recursive : bool) : Prop :=
  recursive = true
  \/ (file_on_disk d directory = false /\ dir_on_disk d directory = true).

End Run.

(** ** Predicates for further properties *)

(** What [re.sub(p+, repl, s)] comes to: every run of [p] characters
    becomes one [repl]; [in_run] tells whether the character before was in
    a run. *)
Fixpoint collapse_runs (p : char -> bool) (repl : str) (in_run : bool) (s : str)
  : str :=
  match s with
  | [] => []
  | c :: s' =>
      if p c then
        if in_run then collapse_runs p repl true s'
        else repl ++ collapse_runs p repl true s'
      else c :: collapse_runs p repl false s'
  end.

(** Some [a] of [s] has a [b] after it: with [a] an opening and [b] the
    closing bracket, [s] still holds a bracketed group. *)
Fixpoint has_group (a b : char) (s : str) : bool :=
  match s with
  | [] => false
  | c :: s' => ((c =? a) && existsb (Z.eqb b) s') || has_group a b s'
  end.


(** The entries of a plan that are not no-ops. *)
Definition to_rename (mapping : list (path * path)) : list (path * path) :=
  List.filter (fun sd => negb (path_eqb (fst sd) (snd sd))) mapping.

(** Where a path of the disk is after the renames of a plan. *)
Definition moved (mapping : list (path * path)) (p : path) : path :=
  match List.find (fun sd => path_eqb (fst sd) p) mapping with
  | Some sd => snd sd
  | None => p
  end.

(** A hyphen, an em dash or an en dash. *)
Definition dash (x : char) : bool := (x =? 45) || (x =? 0x2014) || (x =? 0x2013).

(** An entry of the disk after the renames of a plan. *)
Definition relocate (mapping : list (path * path)) (e : entry) : entry :=
  Entry (moved mapping (e_path e)) (e_is_file e).

Section MorePredicates.
Context {U : UnicodeData}.

(** Every whitespace character is a space, and no two are adjacent;
    [after_space] tells whether the character before was whitespace. *)
Fixpoint single_spaced (after_space : bool) (s : str) : bool :=
  match s with
  | [] => true
  | c :: s' =>
      if isspace c then (c =? 32) && negb after_space && single_spaced true s'
      else single_spaced false s'
  end.

(** A character [make_safe_filename] does not keep. *)
Definition dropped_char (c : char) : bool := unsafe_char c || isspace c.

(** How the planner names the destination of [src]: after the cleaned
    title and the extension in lower case, with or without a counter, and
    onto the source itself when that is the name the source has. *)
Definition named_after (src dst : path) : Prop :=
  exists title,
    extract_title (stem src) = Ok title
    /\ (dst = with_name src (title ++ lower (suffix_of src))
        \/ exists k, (0 < k)%nat
                     /\ dst = with_name src (numbered title k (lower (suffix_of src))))
    /\ (title ++ lower (suffix_of src) = name src -> dst = src).

End MorePredicates.

(** * Facts about strings *)

Lemma suffix_refl s : suffix s s.
Proof. now exists []. Qed.

Lemma suffix_cons c s' s : suffix s' s -> suffix s' (c :: s).
Proof. intros [pre ->]. now exists (c :: pre). Qed.

Lemma suffix_trans a b c : suffix a b -> suffix b c -> suffix a c.
Proof. intros [p ->] [q ->]. exists (q ++ p). now rewrite app_assoc. Qed.

Lemma suffix_length s' s : suffix s' s -> (length s' <= length s)%nat.
Proof. intros [pre ->]. rewrite length_app. lia. Qed.

Lemma lstrip_suffix p s : suffix (lstrip_with p s) s.
Proof.
  induction s as [|c s IH]; simpl.
  - apply suffix_refl.
  - destruct (p c); [now apply suffix_cons | apply suffix_refl].
Qed.

Lemma lstrip_split p s :
  exists pre, s = pre ++ lstrip_with p s /\ forallb p pre = true.
Proof.
  induction s as [|c s [pre [E F]]]; simpl.
  - now exists [].
  - destruct (p c) eqn:Hc.
    + exists (c :: pre). simpl. rewrite Hc, F. split; [now f_equal | reflexivity].
    + now exists [].
Qed.

Lemma rstrip_split p s :
  exists post, s = rstrip_with p s ++ post /\ forallb p post = true.
Proof.
  unfold rstrip_with.
  destruct (lstrip_split p (List.rev s)) as [pre [E F]].
  exists (List.rev pre). split.
  - rewrite <- rev_app_distr, <- E. now rewrite rev_involutive.
  - rewrite forallb_forall in *. intros x Hx. apply F. now apply in_rev.
Qed.

(** What [strip] returns is a piece of its argument. *)
Lemma strip_split p s :
  exists pre post, s = pre ++ strip_with p s ++ post
                   /\ forallb p pre = true /\ forallb p post = true.
Proof.
  unfold strip_with.
  destruct (lstrip_split p s) as [pre [E F]].
  destruct (rstrip_split p (lstrip_with p s)) as [post [E' F']].
  exists pre, post. now rewrite <- E', <- E.
Qed.

Lemma strip_Forall (Q : char -> Prop) p s :
  Forall Q s -> Forall Q (strip_with p s).
Proof.
  destruct (strip_split p s) as [pre [post [E _]]].
  intros H. rewrite E in H.
  apply Forall_app in H as [_ H]. now apply Forall_app in H as [H _].
Qed.

Lemma lstrip_starts p s : starts_with p (lstrip_with p s) = false.
Proof.
  induction s as [|c s IH]; simpl; [reflexivity|].
  destruct (p c) eqn:Hc; [exact IH | simpl; exact Hc].
Qed.

Lemma lstrip_fixed p s : starts_with p s = false -> lstrip_with p s = s.
Proof. destruct s as [|c s]; simpl; [reflexivity | now intros ->]. Qed.

Lemma rstrip_ends p s : ends_with p (rstrip_with p s) = false.
Proof.
  unfold ends_with, rstrip_with. rewrite rev_involutive. apply lstrip_starts.
Qed.

Lemma rstrip_fixed p s : ends_with p s = false -> rstrip_with p s = s.
Proof.
  unfold ends_with, rstrip_with. intros H.
  rewrite lstrip_fixed by exact H. apply rev_involutive.
Qed.

(** Dropping characters at the end does not uncover a stripped character at
    the front. *)
Lemma rstrip_starts p s :
  starts_with p s = false -> starts_with p (rstrip_with p s) = false.
Proof.
  intros H. destruct (rstrip_split p s) as [post [E F]].
  destruct (rstrip_with p s) as [|c r] eqn:Er; [reflexivity|].
  rewrite E in H. exact H.
Qed.

Lemma strip_starts p s : starts_with p (strip_with p s) = false.
Proof. apply rstrip_starts, lstrip_starts. Qed.

Lemma strip_ends p s : ends_with p (strip_with p s) = false.
Proof. apply rstrip_ends. Qed.

Lemma strip_fixed p s :
  starts_with p s = false -> ends_with p s = false -> strip_with p s = s.
Proof.
  intros H1 H2. unfold strip_with.
  rewrite lstrip_fixed by exact H1. now apply rstrip_fixed.
Qed.

Lemma strip_idempotent p s : strip_with p (strip_with p s) = strip_with p s.
Proof. apply strip_fixed; [apply strip_starts | apply strip_ends]. Qed.

Lemma lstrip_keeps p s c :
  In c s -> p c = false -> lstrip_with p s <> [].
Proof.
  induction s as [|d s IH]; simpl; [tauto|].
  intros [->|Hin] Hc.
  - rewrite Hc. discriminate.
  - destruct (p d); [now apply IH | discriminate].
Qed.

(** [strip] leaves something whenever one character is not stripped. *)
Lemma strip_keeps p s c :
  In c s -> p c = false -> strip_with p s <> [].
Proof.
  intros Hin Hc E.
  destruct (strip_split p s) as [pre [post [Es [Fpre Fpost]]]].
  rewrite E in Es. simpl in Es. rewrite Es in Hin.
  rewrite forallb_forall in Fpre, Fpost.
  apply in_app_or in Hin as [Hin|Hin];
    [apply Fpre in Hin | apply Fpost in Hin]; congruence.
Qed.

(** * Facts about the pattern combinators *)

Module ReFacts.
Import Re.

Section Passing.
Context {A : Type}.
Local Abbreviation passes := (@Re.passes A).
Local Abbreviation consumes := (@Re.consumes A).

Lemma consumes_passes f : consumes f -> passes f.
Proof.
  intros H k prev s x E. destruct (H k prev s x E) as (p' & s' & ? & ? & _).
  eauto.
Qed.

Lemma passes_id : passes (fun k => k).
Proof. intros k prev s x E. exists prev, s. auto using suffix_refl. Qed.

Lemma passes_comp f g : passes f -> passes g -> passes (fun k => f (g k)).
Proof.
  intros Hf Hg k prev s x E.
  destruct (Hf _ _ _ _ E) as (p1 & s1 & E1 & S1).
  destruct (Hg _ _ _ _ E1) as (p2 & s2 & E2 & S2).
  exists p2, s2. eauto using suffix_trans.
Qed.

Lemma consumes_comp_l f g :
  consumes f -> passes g -> consumes (fun k => f (g k)).
Proof.
  intros Hf Hg k prev s x E.
  destruct (Hf _ _ _ _ E) as (p1 & s1 & E1 & S1 & L1).
  destruct (Hg _ _ _ _ E1) as (p2 & s2 & E2 & S2).
  exists p2, s2. repeat split; eauto using suffix_trans.
  apply suffix_length in S2. lia.
Qed.

Lemma consumes_comp_r f g :
  passes f -> consumes g -> consumes (fun k => f (g k)).
Proof.
  intros Hf Hg k prev s x E.
  destruct (Hf _ _ _ _ E) as (p1 & s1 & E1 & S1).
  destruct (Hg _ _ _ _ E1) as (p2 & s2 & E2 & S2 & L2).
  exists p2, s2. repeat split; eauto using suffix_trans.
  apply suffix_length in S1. lia.
Qed.

Lemma consumes_one p : consumes (one p).
Proof.
  intros k prev s x E. unfold one in E.
  destruct s as [|c s]; [discriminate|].
  destruct (p c); [|discriminate].
  exists (Some c), s. split; [exact E|].
  split; [apply suffix_cons, suffix_refl | simpl; lia].
Qed.

Lemma passes_star p : passes (star p).
Proof.
  intros k prev s. revert prev.
  induction s as [|c s IH]; intros prev x E; simpl in E.
  - exists prev, []. auto using suffix_refl.
  - destruct (p c).
    + destruct (star p k (Some c) s) eqn:Es.
      * injection E as ->.
        destruct (IH _ _ Es) as (p' & s' & E' & S').
        exists p', s'. auto using suffix_cons.
      * exists prev, (c :: s). auto using suffix_refl.
    + exists prev, (c :: s). auto using suffix_refl.
Qed.

Lemma consumes_plus p : consumes (plus p).
Proof.
  apply (consumes_comp_l (one p) (star p));
    [apply consumes_one | apply passes_star].
Qed.

Lemma passes_exactly n p : passes (exactly n p).
Proof.
  induction n as [|n IH]; simpl.
  - apply passes_id.
  - apply (passes_comp (one p) (exactly n p));
      [apply consumes_passes, consumes_one | exact IH].
Qed.

Lemma passes_upto n p : passes (upto n p).
Proof.
  induction n as [|n IH]; intros k prev s x E; simpl in E.
  - exists prev, s. auto using suffix_refl.
  - destruct s as [|c s]; [exists prev, []; auto using suffix_refl|].
    destruct (p c); [|exists prev, (c :: s); auto using suffix_refl].
    destruct (upto n p k (Some c) s) eqn:Es.
    + injection E as ->.
      destruct (IH _ _ _ _ Es) as (p' & s' & E' & S').
      exists p', s'. auto using suffix_cons.
    + exists prev, (c :: s). auto using suffix_refl.
Qed.

Lemma passes_chars eqc w : passes (chars eqc w).
Proof.
  induction w as [|a w IH]; simpl.
  - apply passes_id.
  - apply (passes_comp (one (eqc a)) (chars eqc w));
      [apply consumes_passes, consumes_one | exact IH].
Qed.

Lemma consumes_chars eqc a w : consumes (chars eqc (a :: w)).
Proof.
  simpl. apply (consumes_comp_l (one (eqc a)) (chars eqc w));
    [apply consumes_one | apply passes_chars].
Qed.

Lemma passes_bol : passes bol.
Proof.
  intros k prev s x E. unfold bol in E. destruct prev; [discriminate|].
  exists None, s. auto using suffix_refl.
Qed.

Lemma passes_eol : passes eol.
Proof.
  intros k prev s x E. unfold eol in E. exists prev, s.
  split; [|apply suffix_refl].
  destruct s as [|c [|d s]]; auto; [|discriminate].
  destruct (c =? 10); [auto | discriminate].
Qed.

Lemma passes_wordb w : passes (wordb w).
Proof.
  intros k prev s x E. unfold wordb in E. exists prev, s.
  split; [|apply suffix_refl].
  destruct (xorb _ _); [auto | discriminate].
Qed.

End Passing.

(** [passing] and [consuming] follow the shape of a pattern. *)
Ltac passing :=
  lazymatch goal with
  | |- Re.passes (fun k => k) => apply passes_id
  | |- Re.passes (Re.one _) => apply consumes_passes, consumes_one
  | |- Re.passes (Re.star _) => apply passes_star
  | |- Re.passes (Re.plus _) => apply consumes_passes, consumes_plus
  | |- Re.passes (Re.exactly _ _) => apply passes_exactly
  | |- Re.passes (Re.upto _ _) => apply passes_upto
  | |- Re.passes (Re.chars _ _) => apply passes_chars
  | |- Re.passes Re.bol => apply passes_bol
  | |- Re.passes Re.eol => apply passes_eol
  | |- Re.passes (Re.wordb _) => apply passes_wordb
  | |- Re.passes (fun k => ?f (@?g k)) =>
      apply (passes_comp f g); passing
  end.

Ltac consuming :=
  lazymatch goal with
  | |- Re.consumes (Re.one _) => apply consumes_one
  | |- Re.consumes (Re.plus _) => apply consumes_plus
  | |- Re.consumes (Re.chars _ (_ :: _)) => apply consumes_chars
  | |- Re.consumes (fun k => ?f (@?g k)) =>
      first [ apply (consumes_comp_l f g); [consuming | passing]
            | apply (consumes_comp_r f g); [passing | consuming] ]
  end.

(** A pattern with a mandatory character has no empty match. *)
Lemma consumes_match_at (r : pattern) prev s n :
  consumes r -> match_at r prev s = Some n -> (0 < n)%nat.
Proof.
  intros Hr E. unfold match_at in E.
  destruct (r accept prev s) as [rest|] eqn:Er; [|discriminate].
  injection E as <-.
  destruct (Hr _ _ _ _ Er) as (p' & s' & E' & _ & L).
  unfold accept in E'. injection E' as ->. lia.
Qed.

(** The one-character patterns. *)
Lemma match_at_one p prev c s :
  match_at (one p) prev (c :: s) = if p c then Some 1%nat else None.
Proof.
  unfold match_at, one, accept. destruct (p c); [|reflexivity].
  f_equal. cbn [length]. lia.
Qed.

Lemma sub_one_delete p s :
  sub (one p) [] s = List.filter (fun c => negb (p c)) s.
Proof.
  unfold sub. generalize (@None char).
  induction s as [|c s IH]; intros prev; [reflexivity|].
  cbn [sub_from List.filter]. rewrite match_at_one.
  destruct (p c); simpl; rewrite IH; reflexivity.
Qed.

Lemma findall_one_length p s :
  length (findall (one p) s) = length (List.filter p s).
Proof.
  unfold findall. generalize (@None char).
  induction s as [|c s IH]; intros prev; [reflexivity|].
  cbn [findall_from List.filter]. rewrite match_at_one.
  destruct (p c); simpl; rewrite IH; reflexivity.
Qed.

Lemma findall_from_nonempty r s :
  forall prev skip, Forall (fun w => w <> []) (findall_from r prev skip s).
Proof.
  induction s as [|c s IH]; intros prev skip; simpl; [constructor|].
  destruct skip; [|apply IH].
  destruct (match_at r prev (c :: s)) as [[|n]|]; try apply IH.
  constructor; [discriminate | apply IH].
Qed.

End ReFacts.

(** * Facts about the helpers *)

Lemma filter_all (f : char -> bool) s :
  Forall (fun c => f c = true) s -> List.filter f s = s.
Proof.
  induction 1 as [|c s Hc _ IH]; simpl; [reflexivity|].
  now rewrite Hc, IH.
Qed.

Lemma filter_Forall (f : char -> bool) s :
  Forall (fun c => f c = true) (List.filter f s).
Proof.
  apply Forall_forall. intros c Hc. now apply filter_In in Hc.
Qed.

Lemma mapM_ok {A B} (f : A -> result B) (g : A -> B) xs :
  (forall x, In x xs -> f x = Ok (g x)) -> mapM f xs = Ok (List.map g xs).
Proof.
  induction xs as [|x xs IH]; intros H; simpl; [reflexivity|].
  rewrite (H x) by now left. simpl.
  rewrite IH by (intros y Hy; apply H; now right). reflexivity.
Qed.

Section HelperFacts.
Context {U : UnicodeData}.

Lemma make_safe_filename_eq s :
  make_safe_filename s = strip (List.filter safe_char s).
Proof.
  unfold make_safe_filename. now rewrite ReFacts.sub_one_delete.
Qed.

Lemma make_safe_filename_safe s :
  Forall (fun c => unsafe_char c = false) (make_safe_filename s).
Proof.
  rewrite make_safe_filename_eq. apply strip_Forall.
  eapply Forall_impl; [|apply (filter_Forall safe_char)].
  intros c Hc. unfold safe_char in Hc. now destruct (unsafe_char c).
Qed.

Lemma make_safe_filename_starts s :
  starts_with isspace (make_safe_filename s) = false.
Proof. rewrite make_safe_filename_eq. apply strip_starts. Qed.

Lemma make_safe_filename_ends s :
  ends_with isspace (make_safe_filename s) = false.
Proof. rewrite make_safe_filename_eq. apply strip_ends. Qed.

Lemma make_safe_filename_fixed s :
  Forall (fun c => unsafe_char c = false) s ->
  starts_with isspace s = false -> ends_with isspace s = false ->
  make_safe_filename s = s.
Proof.
  intros Hs H1 H2. rewrite make_safe_filename_eq.
  rewrite filter_all.
  - now apply strip_fixed.
  - eapply Forall_impl; [|exact Hs].
    intros c Hc. unfold safe_char. now rewrite Hc.
Qed.

Lemma make_safe_filename_keeps s c :
  In c s -> unsafe_char c = false -> isspace c = false ->
  make_safe_filename s <> [].
Proof.
  intros Hin Hu Hs. rewrite make_safe_filename_eq.
  apply (strip_keeps isspace _ c); [|exact Hs].
  apply filter_In. split; [exact Hin|]. unfold safe_char. now rewrite Hu.
Qed.

End HelperFacts.

(** * The patterns of the program

    Each of them has a mandatory character, so none has an empty match. *)

Section PatternFacts.
Context {U : UnicodeData}.

Lemma EMOJI_PATTERN_consumes : Re.consumes EMOJI_PATTERN.
Proof. unfold EMOJI_PATTERN. ReFacts.consuming. Qed.

Lemma known_tag_re_consumes : Re.consumes known_tag_re.
Proof. unfold known_tag_re. vm_compute of_ascii. ReFacts.consuming. Qed.

Lemma square_re_consumes : Re.consumes square_re.
Proof. unfold square_re. ReFacts.consuming. Qed.

Lemma trailing_paren_re_consumes : Re.consumes trailing_paren_re.
Proof. unfold trailing_paren_re. ReFacts.consuming. Qed.

Lemma paren_re_consumes : Re.consumes paren_re.
Proof. unfold paren_re. ReFacts.consuming. Qed.

Lemma leading_noise_re_consumes : Re.consumes leading_noise_re.
Proof. unfold leading_noise_re. ReFacts.consuming. Qed.

Lemma trailing_noise_re_consumes : Re.consumes trailing_noise_re.
Proof. unfold trailing_noise_re. ReFacts.consuming. Qed.

Lemma word_re_consumes : Re.consumes word_re.
Proof. unfold word_re. ReFacts.consuming. Qed.

Lemma separator_re_consumes : Re.consumes separator_re.
Proof. unfold separator_re. ReFacts.consuming. Qed.

End PatternFacts.

(** * The segment scorer *)

Section ScorerFacts.
Context {U : UnicodeData}.

Lemma latin_letter_spec c : latin_letter c = spec_latin_letter c.
Proof.
  unfold latin_letter, spec_latin_letter, between.
  repeat match goal with
         | |- context [?a <=? ?b] => destruct (Z.leb_spec a b)
         | |- context [?a =? ?b] => destruct (Z.eqb_spec a b)
         end; simpl; try reflexivity; lia.
Qed.

Lemma alpha_count_spec seg :
  length (Re.findall (Re.one latin_letter) seg)
  = length (List.filter spec_latin_letter seg).
Proof.
  rewrite ReFacts.findall_one_length. f_equal.
  apply filter_ext. intros c. apply latin_letter_spec.
Qed.

Lemma run_word c s : isword c = true -> run isword (c :: s) = S (run isword s).
Proof.
  intros Hc. unfold run. cbn [lstrip_with length]. rewrite Hc.
  pose proof (suffix_length _ _ (lstrip_suffix isword s)). lia.
Qed.

Lemma run_nonword c s : isword c = false -> run isword (c :: s) = O.
Proof. intros Hc. unfold run. cbn [lstrip_with]. rewrite Hc. lia. Qed.

(** After a word character, [\w*\b] stops at the end of the run of word
    characters, and nowhere else. *)
Lemma star_word_boundary s : forall c0, isword c0 = true ->
  Re.star isword (Re.wordb isword Re.accept) (Some c0) s
  = Some (lstrip_with isword s).
Proof.
  induction s as [|c s IH]; intros c0 H0; simpl.
  - unfold Re.wordb. now rewrite H0.
  - destruct (isword c) eqn:Hc.
    + now rewrite IH.
    + unfold Re.wordb. now rewrite H0, Hc.
Qed.

(** [\b\w+\b] matches exactly where a word starts, and matches the whole
    word. *)
Lemma match_at_word prev c s :
  Re.match_at word_re prev (c :: s)
  = if negb (is_word_before prev) && isword c
    then Some (run isword (c :: s)) else None.
Proof.
  unfold Re.match_at, word_re, Re.wordb at 1, Re.plus, Re.one.
  fold (is_word_before prev).
  destruct (is_word_before prev), (isword c) eqn:Hc; simpl; try reflexivity.
  rewrite star_word_boundary by exact Hc.
  unfold run. simpl. now rewrite Hc.
Qed.

(** The words found, walked along with the count of the specification:
    outside a match, [in_word] is whether the last character was a word
    character; inside one, the rest of the word is still to be passed. *)
Lemma title_words_from s : forall prev skip,
  skip = O \/ (skip = run isword s /\ is_word_before prev = true) ->
  length (List.filter isupper (heads (Re.findall_from word_re prev skip s)))
  = spec_title_words (is_word_before prev) s.
Proof.
  induction s as [|c s IH]; intros prev skip Hinv; [reflexivity|].
  cbn [Re.findall_from spec_title_words].
  destruct skip as [|n].
  - rewrite match_at_word.
    destruct (negb (is_word_before prev) && isword c) eqn:Hstart.
    + apply andb_prop in Hstart as [_ Hc].
      rewrite run_word by exact Hc.
      cbn [heads List.map List.filter firstn hd].
      fold (heads (Re.findall_from word_re (Some c) (run isword s) s)).
      destruct (isupper c); cbn [length];
        rewrite (IH (Some c) (run isword s)) by (right; now split); reflexivity.
    + destruct (run isword (c :: s));
        rewrite (IH (Some c) O) by (now left); reflexivity.
  - destruct Hinv as [Hinv|[Hrun Hprev]]; [discriminate|].
    rewrite Hprev. cbn [negb andb Nat.add].
    destruct (isword c) eqn:Hc.
    + rewrite run_word in Hrun by exact Hc. injection Hrun as ->.
      specialize (IH (Some c) (run isword s)).
      cbn [is_word_before] in IH. rewrite Hc in IH.
      apply IH. right. now split.
    + rewrite run_nonword in Hrun by exact Hc. discriminate.
Qed.

Lemma title_words_spec seg :
  length (List.filter isupper (heads (Re.findall word_re seg)))
  = spec_title_words false seg.
Proof. apply (title_words_from seg None O). now left. Qed.

Lemma index0_heads ws :
  Forall (fun w => w <> []) ws -> mapM index0 ws = Ok (heads ws).
Proof.
  intros H. apply mapM_ok. intros w Hw.
  rewrite Forall_forall in H. specialize (H w Hw).
  destruct w; [contradiction | reflexivity].
Qed.

Lemma tag_penalty_fold (f : str -> bool) tags : forall pen,
  fold_left (fun pen tag => if f tag then pen + 5 else pen) tags pen
  = pen + 5 * Z.of_nat (length (List.filter f tags)).
Proof.
  induction tags as [|t tags IH]; intros pen; cbn [fold_left List.filter].
  - cbn [length]. lia.
  - rewrite IH. destruct (f t); cbn [length]; lia.
Qed.

(** [score] never raises, and computes the score of the specification. *)
Lemma score_ok seg : score seg = Ok (spec_score seg).
Proof.
  unfold score.
  rewrite index0_heads by apply ReFacts.findall_from_nonempty.
  cbn [bind]. f_equal.
  rewrite alpha_count_spec, title_words_spec, tag_penalty_fold.
  unfold spec_score, spec_tag_count. lia.
Qed.

End ScorerFacts.

(** * Order and sorting *)

Lemma str_ltb_irrefl a : str_ltb a a = false.
Proof.
  induction a as [|x a IH]; [reflexivity|].
  unfold str_ltb in *. simpl. now rewrite Z.ltb_irrefl, Z.eqb_refl, IH.
Qed.

Lemma str_ltb_cons x a y b :
  str_ltb (x :: a) (y :: b) = (x <? y) || ((x =? y) && str_ltb a b).
Proof. reflexivity. Qed.

Lemma str_ltb_trans a : forall b c,
  str_ltb a b = true -> str_ltb b c = true -> str_ltb a c = true.
Proof.
  induction a as [|x a IH]; intros [|y b] [|z c]; try discriminate; auto.
  rewrite !str_ltb_cons. intros H1 H2.
  destruct (Z.ltb_spec x y), (Z.ltb_spec y z), (Z.ltb_spec x z),
    (Z.eqb_spec x y), (Z.eqb_spec y z), (Z.eqb_spec x z);
    simpl in *; try reflexivity; try discriminate; try lia.
  eauto.
Qed.

Lemma str_ltb_trichotomy a : forall b,
  str_ltb a b = true \/ a = b \/ str_ltb b a = true.
Proof.
  induction a as [|x a IH]; intros [|y b]; auto.
  rewrite !str_ltb_cons.
  destruct (Z.ltb_spec x y), (Z.ltb_spec y x), (Z.eqb_spec x y), (Z.eqb_spec y x);
    simpl; auto; try lia.
  subst. destruct (IH b) as [K|[->|K]]; auto.
Qed.

Lemma str_ltb_asym a b : str_ltb a b = true -> str_ltb b a = false.
Proof.
  intros H. destruct (str_ltb b a) eqn:E; [|reflexivity].
  pose proof (str_ltb_trans _ _ _ H E) as F.
  now rewrite str_ltb_irrefl in F.
Qed.

(** [a <= b] and [b <= c] give [a <= c], with [<=] as "not greater". *)
Lemma str_leb_trans a b c :
  str_ltb b a = false -> str_ltb c b = false -> str_ltb c a = false.
Proof.
  intros H1 H2. destruct (str_ltb c a) eqn:E; [|reflexivity].
  destruct (str_ltb_trichotomy a b) as [H|[->|H]]; try congruence.
  pose proof (str_ltb_trans _ _ _ E H). congruence.
Qed.

Section PairOrder.
Context {U : UnicodeData}.

Lemma pair_ltb_spec a b :
  pair_ltb a b = true <->
  fst a < fst b \/ (fst a = fst b /\ str_ltb (snd a) (snd b) = true).
Proof.
  unfold pair_ltb.
  destruct (Z.ltb_spec (fst a) (fst b)), (Z.eqb_spec (fst a) (fst b));
    simpl; intuition (try lia; try discriminate).
Qed.

Lemma pair_ltb_false a b :
  pair_ltb a b = false <->
  fst b <= fst a /\ (fst a = fst b -> str_ltb (snd a) (snd b) = false).
Proof.
  unfold pair_ltb.
  destruct (Z.ltb_spec (fst a) (fst b)), (Z.eqb_spec (fst a) (fst b));
    simpl; intuition (try lia; try discriminate).
Qed.

Lemma pair_ltb_irrefl a : pair_ltb a a = false.
Proof. apply pair_ltb_false. split; [lia | intros _; apply str_ltb_irrefl]. Qed.

Lemma pair_ltb_asym a b : pair_ltb a b = true -> pair_ltb b a = false.
Proof.
  rewrite pair_ltb_spec, pair_ltb_false. intros [H|[H1 H2]].
  - split; lia.
  - split; [lia | intros _; now apply str_ltb_asym].
Qed.

Lemma pair_leb_trans a b c :
  pair_ltb b a = false -> pair_ltb c b = false -> pair_ltb c a = false.
Proof.
  rewrite !pair_ltb_false. intros [H1 H2] [H3 H4]. split; [lia|].
  intros E. apply (str_leb_trans _ (snd b)); [apply H2 | apply H4]; lia.
Qed.

End PairOrder.

Section SortedHead.
Context {A : Type} (ltb : A -> A -> bool).
Hypothesis ltb_irrefl : forall a, ltb a a = false.
Hypothesis ltb_asym : forall a b, ltb a b = true -> ltb b a = false.
Hypothesis leb_trans :
  forall a b c, ltb b a = false -> ltb c b = false -> ltb c a = false.

Lemma insert_sorted_In x l z :
  In z (insert_sorted ltb x l) <-> z = x \/ In z l.
Proof.
  induction l as [|y l IH]; simpl; [intuition|].
  destruct (ltb y x); simpl; rewrite ?IH; intuition.
Qed.

Lemma sorted_In l z : In z (sorted ltb l) <-> In z l.
Proof.
  induction l as [|x l IH]; simpl; [tauto|].
  rewrite insert_sorted_In, IH. intuition.
Qed.

(** Nothing in the list is smaller than the first element of the sorted
    list. *)
Lemma sorted_head_least l : forall h t,
  sorted ltb l = h :: t -> forall y, In y l -> ltb y h = false.
Proof.
  induction l as [|x l IH]; intros h t E y Hy; [contradiction|].
  simpl in E. destruct (sorted ltb l) as [|h' t'] eqn:Es.
  - destruct l as [|x' l'].
    + simpl in E. injection E as <- <-. destruct Hy as [->|[]]. apply ltb_irrefl.
    + assert (Hin : In x' (sorted ltb (x' :: l'))) by (apply sorted_In; now left).
      rewrite Es in Hin. contradiction.
  - simpl in E. specialize (IH h' t' eq_refl).
    destruct (ltb h' x) eqn:Hx; injection E as <- <-.
    + destruct Hy as [->|Hy]; [now apply ltb_asym | now apply IH].
    + destruct Hy as [->|Hy]; [apply ltb_irrefl|].
      apply (leb_trans _ h'); [exact Hx | now apply IH].
Qed.

End SortedHead.

(** * The title extractor *)

Section TitleFacts.
Context {U : UnicodeData}.

Lemma unsafe_char_spec c : unsafe_char c = false <-> spec_legal c.
Proof.
  unfold unsafe_char, spec_legal, illegal_chars, between. simpl.
  repeat match goal with
         | |- context [?a <=? ?b] => destruct (Z.leb_spec a b)
         | |- context [?a =? ?b] => destruct (Z.eqb_spec a b)
         end; simpl; split; try discriminate; try (intros _; lia);
    intros [H1 H2]; try reflexivity; exfalso; try lia; apply H1; subst; tauto.
Qed.

Lemma choose_best_segment_eq segs :
  choose_best_segment segs
  = Ok match sorted_reverse pair_ltb
               (List.map (fun s => (spec_score s, strip s)) segs) with
       | [] => []
       | (_, best) :: _ => best
       end.
Proof.
  unfold choose_best_segment.
  rewrite (mapM_ok _ (fun s => (spec_score s, strip s))).
  - cbn [bind]. now destruct (sorted_reverse _ _) as [|[sc best] l].
  - intros s _. now rewrite score_ok.
Qed.

(** Both ways out of [extract_title] go through [make_safe_filename]. *)
Lemma extract_title_shape s :
  exists t,
    extract_title s
    = Ok match make_safe_filename t with
         | [] => make_safe_filename s
         | _ => make_safe_filename t
         end.
Proof.
  unfold extract_title.
  destruct (has_separator _).
  - rewrite choose_best_segment_eq. cbn [bind]. eexists. reflexivity.
  - cbn [bind]. eexists. reflexivity.
Qed.

(** What holds of every [make_safe_filename] result holds of the title. *)
Lemma extract_title_ind (P : str -> Prop) s :
  (forall t, P (make_safe_filename t)) ->
  exists t, extract_title s = Ok t /\ P t.
Proof.
  intros HP. destruct (extract_title_shape s) as [m E].
  eexists. split; [exact E|].
  destruct (make_safe_filename m) eqn:Em; [apply HP|].
  rewrite <- Em. apply HP.
Qed.

(** The letters of a piece of a string are letters of the string. *)
Lemma count_letters_eq s :
  count_letters s = length (List.filter ascii_letter s).
Proof. apply ReFacts.findall_one_length. Qed.

Lemma count_letters_app a b :
  count_letters (a ++ b) = (count_letters a + count_letters b)%nat.
Proof. rewrite !count_letters_eq, filter_app, length_app. reflexivity. Qed.

Lemma count_letters_suffix s' s :
  suffix s' s -> (count_letters s' <= count_letters s)%nat.
Proof. intros [pre ->]. rewrite count_letters_app. lia. Qed.

Lemma count_letters_firstn n s :
  (count_letters (firstn n s) <= count_letters s)%nat.
Proof.
  rewrite <- (firstn_skipn n s) at 2. rewrite count_letters_app. lia.
Qed.

Lemma count_letters_strip s :
  (count_letters (strip s) <= count_letters s)%nat.
Proof.
  unfold strip.
  destruct (strip_split isspace s) as [pre [post [E _]]].
  rewrite E at 2. rewrite !count_letters_app. lia.
Qed.

(** Group 2 of the all-caps pattern is a piece of the string. *)
Lemma match_caps_prefix_piece s group2 :
  match_caps_prefix s = Some group2 ->
  exists n r1, suffix r1 s /\ group2 = firstn n r1.
Proof.
  unfold match_caps_prefix. intros E.
  apply ReFacts.passes_bol in E as (p0 & s0 & E & S0).
  apply ReFacts.passes_exactly in E as (p1 & s1 & E & S1).
  apply ReFacts.passes_upto in E as (p2 & r1 & E & S2).
  apply ReFacts.consumes_plus in E as (p3 & s3 & E & _).
  apply ReFacts.consumes_plus in E as (p4 & s4 & E & _).
  apply ReFacts.passes_eol in E as (p5 & r2 & E & _).
  injection E as <-.
  exists (length r1 - length r2)%nat, r1. split; [|reflexivity].
  eauto using suffix_trans.
Qed.

Lemma caps_candidate_letters s group2 :
  match_caps_prefix s = Some group2 ->
  (count_letters (strip group2) <= count_letters s)%nat.
Proof.
  intros E. apply match_caps_prefix_piece in E as (n & r1 & S1 & ->).
  pose proof (count_letters_strip (firstn n r1)).
  pose proof (count_letters_firstn n r1).
  pose proof (count_letters_suffix _ _ S1). lia.
Qed.

Lemma drop_caps_prefix_id s : drop_caps_prefix s = s.
Proof.
  unfold drop_caps_prefix.
  destruct (match_caps_prefix s) as [group2|] eqn:E; [|reflexivity].
  apply caps_candidate_letters in E.
  destruct (Nat.ltb_spec (count_letters s) (count_letters (strip group2)));
    [lia | reflexivity].
Qed.

End TitleFacts.

(** * Properties of the title extractor *)

Section TitleProperties.
Context {U : UnicodeData}.

(** C1.  On the stem "SPANISH Learn To Cook Tacos" the all-caps prefix
    is not dropped: the pattern matches, the candidate "Learn To Cook
    Tacos" has 16 letters against the 23 of the whole string, the test
    [16 > 23] fails, and [extract_title] returns the stem unchanged. *)
Theorem caps_prefix_kept_on_tacos :
  let stem := of_ascii "SPANISH Learn To Cook Tacos" in
  has_separator stem = false
  /\ match_caps_prefix stem = Some (of_ascii " Learn To Cook Tacos")
  /\ count_letters (of_ascii "Learn To Cook Tacos") = 16%nat
  /\ count_letters stem = 23%nat
  /\ extract_title stem = Ok (of_ascii "SPANISH Learn To Cook Tacos").
Proof. vm_compute. repeat split. Qed.

(** C2, as amended.  If the stem has a character that is neither one of
    the characters [<>:/\|?*], the double quote and the control characters
    U+0000 to U+001F, nor whitespace, then [extract_title] returns a
    non-empty string. *)
Theorem extract_title_nonempty s c :
  In c s -> spec_legal c -> isspace c = false ->
  exists t, extract_title s = Ok t /\ t <> [].
Proof.
  intros Hin Hu Hs. apply unsafe_char_spec in Hu.
  destruct (extract_title_shape s) as [m E].
  eexists. split; [exact E|].
  destruct (make_safe_filename m) eqn:Em; [|discriminate].
  now apply (make_safe_filename_keeps s c).
Qed.

(** C3.  For every string, [extract_title] returns (it does not raise),
    and what it returns has none of the characters [<>:/\|?*], no double
    quote and no control character U+0000 to U+001F. *)
Theorem extract_title_total_and_legal s :
  exists t, extract_title s = Ok t /\ forall c, In c t -> spec_legal c.
Proof.
  apply (extract_title_ind (fun t => forall c, In c t -> spec_legal c)).
  intros t c Hc. apply unsafe_char_spec.
  pose proof (make_safe_filename_safe t) as H.
  rewrite Forall_forall in H. now apply H.
Qed.

(** C4.  [choose_best_segment] returns the empty string for the empty
    list; for a non-empty list it returns the trimmed segment whose pair
    (score, trimmed segment) is the greatest: no segment has a higher
    score, and among those with the same score none has a trimmed text that
    sorts later.  The score is the one of the specification. *)
Theorem choose_best_segment_greatest :
  (forall seg, score seg = Ok (spec_score seg))
  /\ choose_best_segment [] = Ok []
  /\ forall seg segs, exists best,
       In best (seg :: segs)
       /\ choose_best_segment (seg :: segs) = Ok (strip best)
       /\ forall other, In other (seg :: segs) ->
            spec_score other <= spec_score best
            /\ (spec_score other = spec_score best ->
                str_ltb (strip best) (strip other) = false).
Proof.
  split; [exact score_ok|]. split; [reflexivity|].
  intros seg segs. rewrite choose_best_segment_eq.
  set (pair_of := fun s => (spec_score s, strip s)).
  unfold sorted_reverse.
  set (gtb := fun a b : Z * str => pair_ltb b a).
  destruct (sorted gtb (List.map pair_of (seg :: segs))) as [|[sc b] rest] eqn:Es.
  - assert (Hin : In (pair_of seg) (sorted gtb (List.map pair_of (seg :: segs))))
      by (apply sorted_In; now left).
    rewrite Es in Hin. contradiction.
  - assert (Hin : In (sc, b) (List.map pair_of (seg :: segs))).
    { apply (sorted_In gtb). rewrite Es. now left. }
    apply in_map_iff in Hin as [best [Eb Hbest]].
    unfold pair_of in Eb. injection Eb as <- <-.
    exists best. repeat split; [exact Hbest | |].
    all: intros; assert (Hle : gtb (pair_of other) (pair_of best) = false)
          by (apply (sorted_head_least gtb) with (l := List.map pair_of (seg :: segs))
                                                (t := rest);
              [ intros a; apply pair_ltb_irrefl
              | intros a a'; apply pair_ltb_asym
              | intros a a' a'' H1 H2; now apply (pair_leb_trans a'' a' a)
              | exact Es
              | now apply in_map ]);
         unfold gtb in Hle; apply pair_ltb_false in Hle; simpl in Hle.
    + apply Hle.
    + apply Hle. congruence.
Qed.

(** C5.  On "SPANISH PODCAST - My Great Episode (128kbit_AAC)" the
    bracket stripper removes the trailing parenthetical, the separator
    test holds so the string is split, the right segment scores 29
    against 14 for the left one, and the title is "My Great Episode". *)
Theorem separator_wins_on_great_episode :
  let stem := of_ascii "SPANISH PODCAST - My Great Episode (128kbit_AAC)" in
  let cleaned := of_ascii "SPANISH PODCAST - My Great Episode" in
  strip_leading_noise
    (strip_brackets_and_parentheses
       (remove_known_tags (remove_emojis (replace_char 95 32 stem))))
  = cleaned
  /\ has_separator cleaned = true
  /\ Re.split separator_re cleaned
     = [of_ascii "SPANISH PODCAST"; of_ascii "My Great Episode"]
  /\ score (of_ascii "SPANISH PODCAST") = Ok 14
  /\ score (of_ascii "My Great Episode") = Ok 29
  /\ choose_best_segment (Re.split separator_re cleaned)
     = Ok (of_ascii "My Great Episode")
  /\ extract_title stem = Ok (of_ascii "My Great Episode").
Proof. vm_compute. repeat split. Qed.

(** C8.  [make_safe_filename] is idempotent. *)
Theorem make_safe_filename_idempotent s :
  make_safe_filename (make_safe_filename s) = make_safe_filename s.
Proof.
  apply make_safe_filename_fixed.
  - apply make_safe_filename_safe.
  - apply make_safe_filename_starts.
  - apply make_safe_filename_ends.
Qed.

(** C9.  When the all-caps pattern matches, the trimmed remainder never
    has more ASCII letters than the whole string, so the branch leaves the
    string as it is, and [extract_title] equals its variant without the
    branch. *)
Theorem caps_branch_is_dead s :
  match match_caps_prefix s with
  | Some group2 => (count_letters (strip group2) <= count_letters s)%nat
  | None => True
  end
  /\ drop_caps_prefix s = s
  /\ extract_title s = extract_title_without_caps_branch s.
Proof.
  split; [|split].
  - destruct (match_caps_prefix s) eqn:E; [|exact I].
    now apply caps_candidate_letters.
  - apply drop_caps_prefix_id.
  - unfold extract_title, extract_title_without_caps_branch.
    now rewrite drop_caps_prefix_id.
Qed.

(** C10.  The title has no whitespace at its start and none at its
    end. *)
Theorem extract_title_trimmed s :
  exists t, extract_title s = Ok t
            /\ starts_with isspace t = false /\ ends_with isspace t = false.
Proof.
  apply (extract_title_ind
           (fun t => starts_with isspace t = false /\ ends_with isspace t = false)).
  intros t. split; [apply make_safe_filename_starts | apply make_safe_filename_ends].
Qed.

End TitleProperties.

(** C2 as it is stated fails on the stem made of one space: the space is
    none of the deleted characters, and the title is empty. *)
Lemma extract_title_empty_on_space :
  ~ ((exists c, In c [32] /\ spec_legal c) ->
     exists t, extract_title (U := ascii_only) [32] = Ok t /\ t <> []).
Proof.
  intros H. destruct H as [t [E Ht]].
  - exists 32. split; [now left|]. apply unsafe_char_spec. reflexivity.
  - vm_compute in E. injection E as <-. now apply Ht.
Qed.

(** The stem "a" has such a character, and its title is not empty. *)
Lemma extract_title_nonempty_witness :
  exists t, extract_title (U := ascii_only) [97] = Ok t /\ t <> [].
Proof.
  apply (extract_title_nonempty (U := ascii_only) [97] 97);
    [left; reflexivity | split; simpl; lia | reflexivity].
Defined.

(** * The batch planner *)

Lemma str_eqb_eq a b : str_eqb a b = true <-> a = b.
Proof. unfold str_eqb. destruct (list_eq_dec Z.eq_dec a b); intuition discriminate. Qed.

Lemma dir_eqb_eq a b : dir_eqb a b = true <-> a = b.
Proof.
  unfold dir_eqb.
  destruct (list_eq_dec (list_eq_dec Z.eq_dec) a b); intuition discriminate.
Qed.

Lemma path_eqb_eq p q : path_eqb p q = true <-> p = q.
Proof.
  unfold path_eqb. rewrite andb_true_iff, dir_eqb_eq, str_eqb_eq.
  destruct p, q; simpl. split; [intros [-> ->]; reflexivity | intros [= -> ->]; auto].
Qed.

Lemma path_eqb_refl p : path_eqb p p = true.
Proof. now apply path_eqb_eq. Qed.

Lemma path_eqb_neq p q : path_eqb p q = false <-> p <> q.
Proof.
  rewrite <- path_eqb_eq. destruct (path_eqb p q); intuition discriminate.
Qed.

Lemma path_exists_In d p : path_exists d p = true <-> In p (List.map e_path d).
Proof.
  unfold path_exists. rewrite existsb_exists, in_map_iff.
  split; intros [e [H1 H2]]; exists e.
  - apply path_eqb_eq in H2. auto.
  - subst. split; [exact H2 | apply path_eqb_refl].
Qed.

Lemma digits_inj u : forall u', digits u = digits u' -> u = u'.
Proof.
  induction u as [|u IH|u IH|u IH|u IH|u IH|u IH|u IH|u IH|u IH|u IH];
    intros [|u'|u'|u'|u'|u'|u'|u'|u'|u'|u']; simpl; intros E;
    try discriminate; try reflexivity;
    injection E as E; f_equal; now apply IH.
Qed.

Lemma str_of_nat_inj n m : str_of_nat n = str_of_nat m -> n = m.
Proof.
  unfold str_of_nat. intros E. apply digits_inj in E.
  now apply DecimalNat.Unsigned.to_uint_inj.
Qed.


Lemma NoDup_map_inj {A B} (f : A -> B) l :
  (forall x y, f x = f y -> x = y) -> NoDup l -> NoDup (List.map f l).
Proof.
  intros Hf. induction 1 as [|x l Hx _ IH]; simpl; constructor; [|exact IH].
  intros Hin. apply in_map_iff in Hin as [y [E Hy]].
  apply Hf in E. now subst.
Qed.

Section LoopFacts.
Variables (d : disk) (mapping : list (path * path)) (p : path)
          (new_title ext : str).

Lemma numbered_inj k k' :
  numbered new_title k ext = numbered new_title k' ext -> k = k'.
Proof.
  unfold numbered. intros E.
  apply app_inv_head in E. apply app_inv_head in E.
  apply app_inv_tail in E. now apply str_of_nat_inj.
Qed.

Lemma resolve_step fuel count candidate_name :
  resolve (S fuel) d mapping p new_title ext count candidate_name
  = if blocked d mapping p candidate_name
    then resolve fuel d mapping p new_title ext (S count)
                 (numbered new_title (S count) ext)
    else Ok (count, candidate_name).
Proof.
  cbn [resolve]. unfold blocked.
  destruct (path_exists d _ && negb _); [reflexivity|].
  now destruct (planned mapping p _).
Qed.

(** The loop stops on a candidate that neither test refuses. *)
Lemma resolve_break fuel : forall count candidate_name count' candidate_name',
  resolve fuel d mapping p new_title ext count candidate_name
  = Ok (count', candidate_name') ->
  blocked d mapping p candidate_name' = false.
Proof.
  induction fuel as [|fuel IH]; intros count cn count' cn' E; [discriminate|].
  rewrite resolve_step in E.
  destruct (blocked d mapping p cn) eqn:Hb.
  - now apply IH in E.
  - injection E as <- <-. exact Hb.
Qed.

Lemma blocked_occupied candidate_name :
  blocked d mapping p candidate_name = true ->
  In (with_name p candidate_name) (occupied d mapping).
Proof.
  unfold blocked, occupied. intros H. apply in_or_app.
  apply orb_prop in H as [H|H].
  - left. apply andb_prop in H as [H _]. now apply path_exists_In.
  - right. unfold planned in H.
    apply existsb_exists in H as [sd [Hin E]].
    apply filter_In in Hin as [Hin _]. apply path_eqb_eq in E.
    rewrite <- E. now apply in_map.
Qed.

(** Past any counter, one of the next numbered names is refused by
    neither test: the numbered names differ from each other and only
    finitely many paths are occupied. *)
Lemma some_number_free count :
  exists k, (count < k <= count + S (length (occupied d mapping)))%nat
            /\ blocked d mapping p (numbered new_title k ext) = false.
Proof.
  set (n := S (length (occupied d mapping))).
  set (ks := seq (S count) n).
  destruct (existsb (fun k => negb (blocked d mapping p (numbered new_title k ext))) ks)
    eqn:Hex.
  - apply existsb_exists in Hex as [k [Hk Hfree]].
    apply in_seq in Hk. exists k. split; [lia|].
    now destruct (blocked d mapping p (numbered new_title k ext)).
  - exfalso.
    assert (Hall : incl (List.map (fun k => with_name p (numbered new_title k ext)) ks)
                        (occupied d mapping)).
    { intros q Hq. apply in_map_iff in Hq as [k [<- Hk]].
      apply blocked_occupied.
      destruct (blocked d mapping p (numbered new_title k ext)) eqn:Hb;
        [reflexivity|].
      assert (existsb (fun k => negb (blocked d mapping p (numbered new_title k ext))) ks
              = true) by (apply existsb_exists; exists k; now rewrite Hb).
      congruence. }
    apply NoDup_incl_length in Hall.
    + rewrite length_map in Hall. unfold ks in Hall.
      rewrite length_seq in Hall. unfold n in Hall. lia.
    + apply NoDup_map_inj; [|apply seq_NoDup].
      intros x y E. unfold with_name in E. injection E as E.
      now apply numbered_inj in E.
Qed.

(** With a free number at most [dist] steps ahead, [dist + 1] turns of
    the loop reach the [break]. *)
Lemma resolve_reaches dist : forall fuel count candidate_name,
  (exists k, (count < k <= count + dist)%nat
             /\ blocked d mapping p (numbered new_title k ext) = false) ->
  (dist < fuel)%nat ->
  exists r, resolve fuel d mapping p new_title ext count candidate_name = Ok r.
Proof.
  induction dist as [|dist IH]; intros fuel count cn [k [Hk Hfree]] Hfuel;
    [lia|].
  destruct fuel as [|fuel]; [lia|].
  rewrite resolve_step.
  destruct (blocked d mapping p cn); [|eauto].
  destruct (Nat.eq_dec k (S count)) as [->|Hne].
  - destruct fuel as [|fuel]; [lia|].
    rewrite resolve_step, Hfree. eauto.
  - apply IH; [|lia]. exists k. split; [lia | exact Hfree].
Qed.

Lemma resolve_total fuel count candidate_name :
  (S (length (occupied d mapping)) < fuel)%nat ->
  exists count' candidate_name',
    resolve fuel d mapping p new_title ext count candidate_name
    = Ok (count', candidate_name')
    /\ blocked d mapping p candidate_name' = false.
Proof.
  intros Hfuel.
  destruct (resolve_reaches (S (length (occupied d mapping))) fuel count
              candidate_name (some_number_free count) Hfuel) as [[c' cn'] E].
  exists c', cn'. split; [exact E|]. now apply resolve_break in E.
Qed.

End LoopFacts.

Lemma insert_sorted_length {A} (ltb : A -> A -> bool) x l :
  length (insert_sorted ltb x l) = S (length l).
Proof.
  induction l as [|y l IH]; simpl; [reflexivity|].
  destruct (ltb y x); simpl; now rewrite ?IH.
Qed.

Lemma sorted_length {A} (ltb : A -> A -> bool) l :
  length (sorted ltb l) = length l.
Proof.
  induction l as [|x l IH]; simpl; [reflexivity|].
  now rewrite insert_sorted_length, IH.
Qed.

Lemma occupied_length d mapping :
  length (occupied d mapping) = (length d + length mapping)%nat.
Proof. unfold occupied. now rewrite length_app, !length_map. Qed.

(** One more entry, for a source that is on the disk and a candidate the
    loop stopped on, keeps the plan free of collisions and of overwrites. *)
Lemma plan_entry_keeps d mapping p candidate_name :
  collision_free mapping -> overwrites_nothing d mapping ->
  path_exists d p = true ->
  blocked d mapping p candidate_name = false ->
  collision_free (mapping ++ [(p, with_name p candidate_name)])
  /\ overwrites_nothing d (mapping ++ [(p, with_name p candidate_name)]).
Proof.
  intros Hcf Hov Hp Hb. unfold blocked in Hb.
  apply orb_false_elim in Hb as [Hdisk Hplanned].
  assert (Hold : forall src dst, In (src, dst) mapping ->
                                 dst = with_name p candidate_name -> src = p).
  { intros src dst Hin ->.
    destruct (path_eqb (with_name p candidate_name) p) eqn:Esame.
    - apply path_eqb_eq in Esame.
      symmetry. rewrite <- Esame at 1. apply (Hov src); [exact Hin|].
      now rewrite Esame.
    - exfalso. unfold planned in Hplanned.
      assert (existsb (fun sd => path_eqb (snd sd) (with_name p candidate_name))
                (List.filter
                   (fun sd => dir_eqb (parent (snd sd)) (parent p)
                              && negb (path_eqb (snd sd) p)) mapping) = true);
        [|congruence].
      apply existsb_exists. exists (src, with_name p candidate_name).
      split; [|apply path_eqb_refl].
      apply filter_In. split; [exact Hin|]. simpl.
      rewrite Esame. simpl. rewrite andb_true_r. now apply dir_eqb_eq. }
  split.
  - intros s1 d1 s2 d2 H1 H2 Hne E.
    apply in_app_or in H1 as [H1|[H1|[]]]; apply in_app_or in H2 as [H2|[H2|[]]].
    + now apply (Hcf s1 d1 s2 d2).
    + injection H2 as <- <-. apply Hne. now apply (Hold s1 d1).
    + injection H1 as <- <-. apply Hne. symmetry. now apply (Hold s2 d2).
    + injection H1 as <- <-. injection H2 as <- _. now apply Hne.
  - intros src dst Hin Hex.
    apply in_app_or in Hin as [Hin|[Hin|[]]]; [now apply (Hov src)|].
    injection Hin as <- <-. rewrite Hex in Hdisk. simpl in Hdisk.
    apply path_eqb_eq. now destruct (path_eqb (with_name p candidate_name) p).
Qed.

Section PlannerFacts.
Context {U : UnicodeData}.

Lemma discover_on_disk d directory recursive p :
  In p (discover d directory recursive) -> path_exists d p = true.
Proof.
  unfold discover. intros H. apply path_exists_In.
  apply in_map_iff in H as [e [<- He]]. apply filter_In in He as [He _].
  now apply in_map.
Qed.

Lemma discover_length d directory recursive :
  (length (discover d directory recursive) <= length d)%nat.
Proof. unfold discover. rewrite length_map. apply filter_length_le. Qed.

(** With fuel for the longest run of the inner loop, the outer loop
    plans every file and keeps the plan free of collisions and of
    overwrites. *)
Lemma plan_ok d files : forall fuel mapping seen,
  collision_free mapping -> overwrites_nothing d mapping ->
  (forall p, In p files -> path_exists d p = true) ->
  (S (length d + length mapping + length files) < fuel)%nat ->
  exists mapping',
    plan fuel d files mapping seen = Ok mapping'
    /\ collision_free mapping' /\ overwrites_nothing d mapping'
    /\ List.map fst mapping' = List.map fst mapping ++ files.
Proof.
  induction files as [|p files IH]; intros fuel mapping seen Hcf Hov Hfiles Hfuel.
  - exists mapping. simpl. rewrite app_nil_r. auto.
  - cbn [plan].
    destruct (extract_title_shape (stem p)) as [m ->]. cbn [bind].
    match goal with
    | |- context [resolve fuel d mapping p ?t ?e ?c ?n] =>
        destruct (resolve_total d mapping p t e fuel c n)
          as (count' & cn' & -> & Hfree)
    end.
    { rewrite occupied_length. simpl in Hfuel. lia. }
    cbn [bind].
    destruct (plan_entry_keeps d mapping p cn' Hcf Hov) as [Hcf' Hov'];
      [apply Hfiles; now left | exact Hfree |].
    match goal with
    | |- context [plan fuel d files ?m' ?s'] =>
        destruct (IH fuel m' s' Hcf' Hov') as (mm & E & H1 & H2 & H3)
    end.
    + intros q Hq. apply Hfiles. now right.
    + rewrite length_app. simpl in *. lia.
    + exists mm. rewrite E. repeat split; auto.
      rewrite H3, map_app. simpl. now rewrite <- app_assoc.
Qed.

(** C6.  With enough fuel for the inner loop, the planning loop
    produces a plan for the files it found, in their sorted order; no two
    entries of the plan with distinct sources have the same destination,
    and no destination is the path of something on the disk other than
    the entry's own source. *)
Theorem planning_never_collides d directory recursive fuel :
  (2 * length d + 1 < fuel)%nat ->
  exists mapping,
    planning fuel d directory recursive = Ok mapping
    /\ List.map fst mapping = sorted path_ltb (discover d directory recursive)
    /\ (forall src1 dst1 src2 dst2,
          In (src1, dst1) mapping -> In (src2, dst2) mapping ->
          src1 <> src2 -> dst1 <> dst2)
    /\ (forall src dst,
          In (src, dst) mapping -> path_exists d dst = true -> dst = src).
Proof.
  intros Hfuel. unfold planning.
  destruct (plan_ok d (sorted path_ltb (discover d directory recursive))
              fuel [] []) as (mapping & E & Hcf & Hov & Hsrc).
  - intros ? ? ? ? [].
  - intros ? ? [].
  - intros p Hp. apply sorted_In in Hp. now apply discover_on_disk in Hp.
  - rewrite sorted_length. pose proof (discover_length d directory recursive).
    simpl. lia.
  - exists mapping. auto.
Qed.

End PlannerFacts.

(** * The properties on a sample directory *)

(** Two files that clean to the title "Episode" are planned, in the order
    of their paths, as "Episode.mp3" and "Episode (1).mp3". *)
Example planning_numbers_second_episode :
  planning (U := ascii_only) 6 sample_disk [of_ascii "music"] false
  = Ok [ (Path [of_ascii "music"] (of_ascii "Episode [a].mp3"),
          Path [of_ascii "music"] (of_ascii "Episode.mp3"));
         (Path [of_ascii "music"] (of_ascii "Episode [b].mp3"),
          Path [of_ascii "music"] (of_ascii "Episode (1).mp3")) ].
Proof. vm_compute. reflexivity. Qed.

(** The sample directory, with fuel 6, is planned without collision. *)
Lemma planning_never_collides_witness :
  exists mapping,
    planning (U := ascii_only) 6 sample_disk [of_ascii "music"] false = Ok mapping
    /\ List.map fst mapping
       = sorted path_ltb (discover (U := ascii_only) sample_disk [of_ascii "music"] false)
    /\ collision_free mapping
    /\ overwrites_nothing sample_disk mapping.
Proof.
  apply (planning_never_collides (U := ascii_only) sample_disk
           [of_ascii "music"] false 6).
  vm_compute. lia.
Defined.


(** * Further properties: the cleaning stages *)

Lemma run_hit (p : char -> bool) c s : p c = true -> run p (c :: s) = S (run p s).
Proof.
  intros Hc. unfold run. cbn [lstrip_with length]. rewrite Hc.
  pose proof (suffix_length _ _ (lstrip_suffix p s)). lia.
Qed.

Lemma run_miss (p : char -> bool) c s : p c = false -> run p (c :: s) = O.
Proof. intros Hc. unfold run. cbn [lstrip_with]. rewrite Hc. lia. Qed.

Lemma star_accept p s : forall prev,
  Re.star p Re.accept prev s = Some (lstrip_with p s).
Proof.
  induction s as [|c s IH]; intros prev; simpl; [reflexivity|].
  destruct (p c); [now rewrite IH | reflexivity].
Qed.

(** [p+] matches the whole run of [p] characters. *)
Lemma match_at_plus p prev c s :
  Re.match_at (Re.plus p) prev (c :: s)
  = if p c then Some (S (run p s)) else None.
Proof.
  unfold Re.match_at, Re.plus, Re.one. destruct (p c) eqn:Hc; [|reflexivity].
  rewrite star_accept. f_equal. fold (run p s).
  unfold run. cbn [length].
  pose proof (suffix_length _ _ (lstrip_suffix p s)). lia.
Qed.

Lemma collapse_runs_outside p repl s :
  run p s = O -> collapse_runs p repl true s = collapse_runs p repl false s.
Proof.
  destruct s as [|c s]; [reflexivity|]. simpl.
  destruct (p c) eqn:Hc; [|reflexivity].
  rewrite run_hit by exact Hc. discriminate.
Qed.

Lemma sub_plus_from p repl s :
  (forall prev, Re.sub_from (Re.plus p) repl prev O s = collapse_runs p repl false s)
  /\ (forall prev, Re.sub_from (Re.plus p) repl prev (run p s) s
                   = collapse_runs p repl true s).
Proof.
  induction s as [|c s [IH0 IHrun]].
  - split; reflexivity.
  - assert (H0 : forall prev, Re.sub_from (Re.plus p) repl prev O (c :: s)
                              = collapse_runs p repl false (c :: s)).
    { intros prev. cbn [Re.sub_from collapse_runs]. rewrite match_at_plus.
      destruct (p c); [now rewrite IHrun | now rewrite IH0]. }
    split; [exact H0|]. intros prev.
    destruct (p c) eqn:Hc.
    + rewrite run_hit by exact Hc. cbn [Re.sub_from collapse_runs].
      rewrite Hc. apply IHrun.
    + rewrite run_miss by exact Hc. rewrite H0.
      symmetry. apply collapse_runs_outside. now apply run_miss.
Qed.

(** [re.sub(p+, repl, s)] turns every run of [p] characters into [repl]. *)
Lemma sub_plus p repl s :
  Re.sub (Re.plus p) repl s = collapse_runs p repl false s.
Proof. apply sub_plus_from. Qed.

Lemma collapse_runs_delete p s : forall b,
  collapse_runs p [] b s = List.filter (fun c => negb (p c)) s.
Proof.
  induction s as [|c s IH]; intros b; simpl; [reflexivity|].
  destruct (p c); simpl; [destruct b|]; now rewrite IH.
Qed.

(** X1.  [remove_emojis] deletes the characters of the emoji ranges and
    nothing else: what it returns is the other characters, in their
    order. *)
Theorem remove_emojis_deletes_emojis s :
  remove_emojis s = List.filter (fun c => negb (is_emoji c)) s.
Proof.
  unfold remove_emojis, EMOJI_PATTERN. rewrite sub_plus.
  apply collapse_runs_delete.
Qed.

Lemma sub_from_skip_all r repl s : forall prev,
  Re.sub_from r repl prev (length s) s = [].
Proof. induction s as [|c s IH]; intros prev; simpl; [reflexivity | apply IH]. Qed.

(** A pattern that matches nowhere after the start of the string leaves
    what follows as it is. *)
Lemma sub_from_no_match r repl :
  (forall c0 s, Re.match_at r (Some c0) s = None) ->
  forall s c0, Re.sub_from r repl (Some c0) O s = s.
Proof.
  intros Hr. induction s as [|c s IH]; intros c0; simpl; [reflexivity|].
  now rewrite Hr, IH.
Qed.

Lemma lstrip_app p a b :
  lstrip_with p (a ++ b)
  = if forallb p a then lstrip_with p b else lstrip_with p a ++ b.
Proof.
  induction a as [|c a IH]; simpl; [reflexivity|].
  destruct (p c); simpl; [exact IH | reflexivity].
Qed.

Lemma forallb_rev (p : char -> bool) s : forallb p (List.rev s) = forallb p s.
Proof.
  induction s as [|c s IH]; simpl; [reflexivity|].
  rewrite forallb_app, IH. simpl. rewrite andb_true_r. apply andb_comm.
Qed.

Lemma rstrip_cons p c s :
  rstrip_with p (c :: s)
  = if forallb p (c :: s) then [] else c :: rstrip_with p s.
Proof.
  unfold rstrip_with. cbn [List.rev forallb]. rewrite lstrip_app.
  rewrite forallb_rev.
  destruct (forallb p s) eqn:Hs.
  - rewrite andb_true_r. simpl. destruct (p c) eqn:Hc; simpl; [reflexivity|].
    assert (E : lstrip_with p (List.rev s) = []).
    { destruct (lstrip_split p (List.rev s)) as [pre [E F]].
      pose proof (lstrip_starts p (List.rev s)) as Hst.
      destruct (lstrip_with p (List.rev s)) as [|x l]; [reflexivity|].
      simpl in Hst.
      assert (Hx : In x (List.rev s)) by (rewrite E; apply in_or_app; right; now left).
      apply in_rev in Hx. rewrite forallb_forall in Hs. apply Hs in Hx. congruence. }
    now rewrite E.
  - rewrite andb_false_r. rewrite rev_app_distr. reflexivity.
Qed.

Section NoiseFacts.
Context {U : UnicodeData}.

Lemma nonword_newline : nonword 10 = true.
Proof. reflexivity. Qed.

Lemma match_at_leading_later c0 s :
  Re.match_at leading_noise_re (Some c0) s = None.
Proof. reflexivity. Qed.

Lemma match_at_leading_first c s :
  Re.match_at leading_noise_re None (c :: s)
  = if nonword c then Some (S (run nonword s)) else None.
Proof. apply (match_at_plus nonword None c s). Qed.

Lemma sub_leading_run s : forall c0,
  Re.sub_from leading_noise_re [] (Some c0) (run nonword s) s
  = lstrip_with nonword s.
Proof.
  induction s as [|c s IH]; intros c0; [reflexivity|].
  destruct (nonword c) eqn:Hc.
  - rewrite run_hit by exact Hc. cbn [Re.sub_from lstrip_with]. rewrite Hc.
    apply IH.
  - rewrite run_miss by exact Hc. cbn [lstrip_with]. rewrite Hc.
    apply sub_from_no_match. apply match_at_leading_later.
Qed.

(** X2.  [strip_leading_noise] removes the longest run of characters at
    the start that are neither word characters nor digits, and nothing
    else: what it returns does not start with such a character and is the
    rest of the string. *)
Theorem strip_leading_noise_strips s :
  strip_leading_noise s = lstrip_with nonword s
  /\ starts_with nonword (strip_leading_noise s) = false
  /\ suffix (strip_leading_noise s) s.
Proof.
  assert (E : strip_leading_noise s = lstrip_with nonword s).
  { unfold strip_leading_noise, Re.sub. destruct s as [|c s]; [reflexivity|].
    cbn [Re.sub_from lstrip_with]. rewrite match_at_leading_first.
    destruct (nonword c).
    - apply sub_leading_run.
    - f_equal. apply sub_from_no_match. apply match_at_leading_later. }
  rewrite E. split; [reflexivity|].
  split; [apply lstrip_starts | apply lstrip_suffix].
Qed.

(** [[^\w\d]*$] after a first character: the run has to reach the end. *)
Lemma star_nonword_eol s : forall prev,
  Re.star nonword (Re.eol Re.accept) prev s
  = if forallb nonword s then Some [] else None.
Proof.
  induction s as [|c s IH]; intros prev; [reflexivity|].
  cbn [Re.star forallb]. destruct (nonword c) eqn:Hc.
  - rewrite IH. cbn [andb]. destruct (forallb nonword s) eqn:Hs; [reflexivity|].
    destruct s; [discriminate | reflexivity].
  - cbn [andb]. unfold Re.eol. destruct s; [|reflexivity].
    destruct (Z.eqb_spec c 10) as [->|_]; [|reflexivity].
    rewrite nonword_newline in Hc. discriminate.
Qed.

Lemma match_at_trailing prev c s :
  Re.match_at trailing_noise_re prev (c :: s)
  = if forallb nonword (c :: s) then Some (S (length s)) else None.
Proof.
  unfold Re.match_at, trailing_noise_re, Re.plus, Re.one. cbn [forallb].
  destruct (nonword c); [|reflexivity].
  rewrite star_nonword_eol. cbn [andb].
  destruct (forallb nonword s); reflexivity.
Qed.

(** X3.  [strip_trailing_noise] removes the longest run of characters at
    the end that are neither word characters nor digits, and nothing else:
    what it returns does not end with such a character. *)
Theorem strip_trailing_noise_strips s :
  strip_trailing_noise s = rstrip_with nonword s
  /\ ends_with nonword (strip_trailing_noise s) = false.
Proof.
  assert (E : forall prev, Re.sub_from trailing_noise_re [] prev O s
                           = rstrip_with nonword s).
  { induction s as [|c s IH]; intros prev; [reflexivity|].
    cbn [Re.sub_from]. rewrite match_at_trailing, rstrip_cons.
    destruct (forallb nonword (c :: s)).
    - apply sub_from_skip_all.
    - now rewrite IH. }
  unfold strip_trailing_noise, Re.sub. rewrite E.
  split; [reflexivity | apply rstrip_ends].
Qed.

End NoiseFacts.

Section SanitizeFacts.
Context {U : UnicodeData}.

Lemma collapse_single_spaced s : forall b,
  single_spaced b (collapse_runs isspace [32] b s) = true.
Proof.
  induction s as [|c s IH]; intros b; [reflexivity|].
  cbn [collapse_runs]. destruct (isspace c) eqn:Hc.
  - destruct b; [apply IH|].
    change (single_spaced false (32 :: collapse_runs isspace [32] true s) = true).
    cbn [single_spaced]. change (isspace 32) with true. cbn. apply IH.
  - cbn [single_spaced]. rewrite Hc. apply IH.
Qed.

Lemma single_spaced_weaken s : single_spaced true s = true -> single_spaced false s = true.
Proof.
  destruct s as [|c s]; [reflexivity|]. cbn [single_spaced].
  destruct (isspace c); [|auto]. rewrite andb_false_r. discriminate.
Qed.

Lemma single_spaced_tail b c s :
  single_spaced b (c :: s) = true -> single_spaced false s = true.
Proof.
  cbn [single_spaced]. destruct (isspace c); [|auto].
  intros H. apply andb_prop in H as [_ H]. now apply single_spaced_weaken.
Qed.

Lemma single_spaced_suffix pre : forall b s,
  single_spaced b (pre ++ s) = true -> single_spaced false s = true.
Proof.
  induction pre as [|c pre IH]; intros b s H.
  - destruct b; [now apply single_spaced_weaken | exact H].
  - apply single_spaced_tail in H. now apply IH in H.
Qed.

Lemma single_spaced_prefix s post : forall b,
  single_spaced b (s ++ post) = true -> single_spaced b s = true.
Proof.
  induction s as [|c s IH]; intros b H; [reflexivity|].
  cbn [app single_spaced] in *. destruct (isspace c).
  - apply andb_prop in H as [H1 H2]. rewrite H1. now apply IH.
  - now apply IH.
Qed.

Lemma single_spaced_strip p s :
  single_spaced false s = true -> single_spaced false (strip_with p s) = true.
Proof.
  intros H. destruct (strip_split p s) as [pre [post [E _]]].
  rewrite E in H. apply single_spaced_suffix in H.
  now apply single_spaced_prefix in H.
Qed.

Lemma single_spaced_space s : forall b c,
  single_spaced b s = true -> In c s -> isspace c = true -> c = 32.
Proof.
  induction s as [|x s IH]; intros b c H Hin Hc; [contradiction|].
  cbn [single_spaced] in H. destruct Hin as [->|Hin].
  - rewrite Hc in H. apply andb_prop in H as [H _].
    apply andb_prop in H as [H _]. now apply Z.eqb_eq.
  - destruct (isspace x); [|now apply (IH false)].
    apply andb_prop in H as [_ H]. now apply (IH true).
Qed.

Lemma single_spaced_fixed s : forall b,
  single_spaced b s = true -> collapse_runs isspace [32] b s = s.
Proof.
  induction s as [|c s IH]; intros b H; [reflexivity|].
  cbn [single_spaced collapse_runs] in *. destruct (isspace c).
  - apply andb_prop in H as [H Hs]. apply andb_prop in H as [Hc Hb].
    apply Z.eqb_eq in Hc. subst c. destruct b; [discriminate|].
    simpl. now rewrite IH.
  - now rewrite IH.
Qed.

Lemma edge_punct_space : edge_punct 32 = true.
Proof. reflexivity. Qed.

Lemma single_spaced_edges t :
  single_spaced false t = true ->
  starts_with edge_punct t = false -> ends_with edge_punct t = false ->
  starts_with isspace t = false /\ ends_with isspace t = false.
Proof.
  intros Hss H1 H2.
  assert (Hsp : forall c, In c t -> isspace c = true -> edge_punct c = true).
  { intros c Hin Hc. rewrite (single_spaced_space t false c Hss Hin Hc).
    apply edge_punct_space. }
  split.
  - destruct t as [|c r]; [reflexivity|]. cbn [starts_with] in *.
    destruct (isspace c) eqn:Hc; [|reflexivity].
    rewrite Hsp in H1; [discriminate | now left | exact Hc].
  - unfold ends_with in *. destruct (List.rev t) as [|c r] eqn:Er; [reflexivity|].
    cbn [starts_with] in *. destruct (isspace c) eqn:Hc; [|reflexivity].
    rewrite Hsp in H2; [discriminate | | exact Hc].
    apply in_rev. rewrite Er. now left.
Qed.

Lemma sanitize_single_spaced s :
  single_spaced false (sanitize_whitespace_and_punct s) = true.
Proof.
  unfold sanitize_whitespace_and_punct, strip. rewrite sub_plus.
  apply single_spaced_strip, single_spaced_strip, collapse_single_spaced.
Qed.

(** X4.  In what [sanitize_whitespace_and_punct] returns, every whitespace
    character is a single space with no whitespace next to it, and neither
    end is whitespace or one of the characters of [" -–—_:;,."]. *)
Theorem sanitize_shape s :
  let t := sanitize_whitespace_and_punct s in
  single_spaced false t = true
  /\ starts_with edge_punct t = false /\ ends_with edge_punct t = false
  /\ starts_with isspace t = false /\ ends_with isspace t = false.
Proof.
  intros t.
  assert (H1 : starts_with edge_punct t = false) by apply strip_starts.
  assert (H2 : ends_with edge_punct t = false) by apply strip_ends.
  pose proof (sanitize_single_spaced s) as Hss. fold t in Hss.
  split; [exact Hss|]. split; [exact H1|]. split; [exact H2|].
  now apply single_spaced_edges.
Qed.

(** X5.  [sanitize_whitespace_and_punct] is idempotent. *)
Theorem sanitize_idempotent s :
  sanitize_whitespace_and_punct (sanitize_whitespace_and_punct s)
  = sanitize_whitespace_and_punct s.
Proof.
  pose proof (sanitize_single_spaced s) as Hss.
  assert (H1 : starts_with edge_punct (sanitize_whitespace_and_punct s) = false)
    by apply strip_starts.
  assert (H2 : ends_with edge_punct (sanitize_whitespace_and_punct s) = false)
    by apply strip_ends.
  destruct (single_spaced_edges _ Hss H1 H2) as [H3 H4].
  set (t := sanitize_whitespace_and_punct s) in *.
  unfold sanitize_whitespace_and_punct at 1. rewrite sub_plus.
  rewrite single_spaced_fixed by exact Hss.
  unfold strip. rewrite (strip_fixed isspace t H3 H4).
  now apply strip_fixed.
Qed.

End SanitizeFacts.

(** What [re.sub] returns is made of characters of the string and of the
    replacement. *)
Lemma sub_from_In r repl x s : forall prev skip,
  In x (Re.sub_from r repl prev skip s) -> In x s \/ In x repl.
Proof.
  induction s as [|c s IH]; intros prev skip H; [contradiction|].
  cbn [Re.sub_from] in H. destruct skip as [|n].
  - destruct (Re.match_at r prev (c :: s)) as [[|n]|].
    + destruct H as [->|H]; [left; now left|].
      apply IH in H as [H|H]; [left; now right | now right].
    + apply in_app_or in H as [H|H]; [now right|].
      apply IH in H as [H|H]; [left; now right | now right].
    + destruct H as [->|H]; [left; now left|].
      apply IH in H as [H|H]; [left; now right | now right].
  - apply IH in H as [H|H]; [left; now right | now right].
Qed.

Lemma existsb_eqb_In b s : existsb (Z.eqb b) s = true <-> In b s.
Proof.
  rewrite existsb_exists. split.
  - intros [x [Hx E]]. apply Z.eqb_eq in E. now subst.
  - intros H. exists b. split; [exact H | apply Z.eqb_refl].
Qed.

Lemma has_group_cons a b c s :
  has_group a b (c :: s) = false <->
  (c = a -> ~ In b s) /\ has_group a b s = false.
Proof.
  cbn [has_group]. rewrite orb_false_iff, andb_false_iff.
  rewrite Z.eqb_neq, <- existsb_eqb_In.
  destruct (existsb (Z.eqb b) s); intuition congruence.
Qed.

Lemma has_group_skip a b pre s :
  ~ In a pre -> has_group a b (pre ++ s) = has_group a b s.
Proof.
  induction pre as [|c pre IH]; intros H; [reflexivity|].
  cbn [app has_group]. rewrite IH by (intros K; apply H; now right).
  destruct (Z.eqb_spec c a) as [->|_]; [|reflexivity].
  exfalso. apply H. now left.
Qed.

(** Replacing matches by text without brackets does not make a group. *)
Lemma sub_from_keeps_group_free a b r repl s :
  ~ In a repl -> ~ In b repl ->
  forall prev skip,
    has_group a b s = false ->
    has_group a b (Re.sub_from r repl prev skip s) = false.
Proof.
  intros Ha Hb. induction s as [|c s IH]; intros prev skip H; [reflexivity|].
  apply has_group_cons in H as [Hc Hs].
  assert (Hkeep : forall prev', has_group a b (c :: Re.sub_from r repl prev' O s) = false).
  { intros prev'. apply has_group_cons. split; [|now apply IH].
    intros E Hin. apply sub_from_In in Hin as [Hin|Hin]; [now apply Hc | now apply Hb]. }
  cbn [Re.sub_from]. destruct skip as [|n]; [|now apply IH].
  destruct (Re.match_at r prev (c :: s)) as [[|n]|]; try apply Hkeep.
  rewrite has_group_skip by exact Ha. now apply IH.
Qed.

(** After an opening bracket, [[^b]*b] finds the first closing one. *)
Lemma star_until_closing b s : forall prev,
  In b s ->
  exists rest, Re.star (not_char b) (Re.one (is_char b) Re.accept) prev s = Some rest.
Proof.
  induction s as [|c s IH]; intros prev Hin; [contradiction|].
  cbn [Re.star]. unfold not_char at 1. destruct (Z.eqb_spec c b) as [->|Hne].
  - cbn [negb]. unfold Re.one, is_char. rewrite Z.eqb_refl. exists s. reflexivity.
  - cbn [negb]. destruct Hin as [E|Hin]; [congruence|].
    destruct (IH (Some c) Hin) as [rest ->]. exists rest. reflexivity.
Qed.

(** Deleting, or replacing, the groups [a ... b] leaves no [a] with a [b]
    after it. *)
Lemma sub_group_free a b repl s :
  ~ In a repl -> ~ In b repl ->
  forall prev skip,
    has_group a b
      (Re.sub_from (fun k => Re.one (is_char a)
                               (Re.star (not_char b) (Re.one (is_char b) k)))
                   repl prev skip s) = false.
Proof.
  intros Ha Hb. set (r := fun k => _).
  induction s as [|c s IH]; intros prev skip; [reflexivity|].
  cbn [Re.sub_from]. destruct skip as [|n]; [|apply IH].
  assert (Hkeep : Re.match_at r prev (c :: s) = None ->
                  has_group a b (c :: Re.sub_from r repl (Some c) O s) = false).
  { intros Hm. apply has_group_cons. split; [|apply IH].
    intros -> Hin. apply sub_from_In in Hin as [Hin|Hin]; [|now apply Hb].
    destruct (star_until_closing b s (Some a) Hin) as [rest E].
    unfold Re.match_at, r, Re.one at 1, is_char at 1 in Hm.
    rewrite Z.eqb_refl, E in Hm. discriminate. }
  destruct (Re.match_at r prev (c :: s)) as [[|n]|] eqn:Hm.
  - exfalso. apply (Nat.lt_irrefl 0).
    apply (ReFacts.consumes_match_at r prev (c :: s)); [|exact Hm].
    unfold r. ReFacts.consuming.
  - rewrite has_group_skip by exact Ha. apply IH.
  - now apply Hkeep.
Qed.

Section BracketFacts.
Context {U : UnicodeData}.

(** X6.  What [strip_brackets_and_parentheses] returns holds no
    bracketed group: no [[] with a []] after it, and no [(] with a [)]
    after it. *)
Theorem strip_brackets_leaves_no_group s :
  has_group 91 93 (strip_brackets_and_parentheses s) = false
  /\ has_group 40 41 (strip_brackets_and_parentheses s) = false.
Proof.
  unfold strip_brackets_and_parentheses, Re.sub. split.
  - apply sub_from_keeps_group_free; [simpl; intuition lia | simpl; intuition lia |].
    apply sub_from_keeps_group_free; [auto | auto |].
    apply (sub_group_free 91 93 []); auto.
  - apply (sub_group_free 40 41 [32]); simpl; intuition lia.
Qed.

End BracketFacts.

(** * Further properties: the title *)

Lemma lstrip_all p s : forallb p s = true -> lstrip_with p s = [].
Proof.
  induction s as [|c s IH]; simpl; [reflexivity|].
  intros H. apply andb_prop in H as [Hc Hs]. rewrite Hc. now apply IH.
Qed.

Lemma strip_all p s : forallb p s = true -> strip_with p s = [].
Proof. intros H. unfold strip_with. now rewrite lstrip_all. Qed.

Lemma strip_In p s x : In x (strip_with p s) -> In x s.
Proof.
  destruct (strip_split p s) as [pre [post [E _]]]. intros H.
  rewrite E. apply in_or_app. right. apply in_or_app. now left.
Qed.

Lemma strip_nil p s : strip_with p s = [] -> forallb p s = true.
Proof.
  intros E. destruct (strip_split p s) as [pre [post [Es [F1 F2]]]].
  rewrite E in Es. simpl in Es. rewrite Es, forallb_app, F1, F2. reflexivity.
Qed.

Lemma split_from_In r x s : forall prev skip cur piece,
  In piece (Re.split_from r prev skip cur s) -> In x piece ->
  In x s \/ In x cur.
Proof.
  induction s as [|c s IH]; intros prev skip cur piece Hp Hx.
  - destruct Hp as [<-|[]]. right. now apply in_rev.
  - cbn [Re.split_from] in Hp. destruct skip as [|n].
    + destruct (Re.match_at r prev (c :: s)) as [[|n]|].
      * destruct (IH _ _ _ _ Hp Hx) as [H|[->|H]]; auto using in_cons, in_eq.
      * destruct Hp as [<-|Hp]; [right; now apply in_rev|].
        destruct (IH _ _ _ _ Hp Hx) as [H|[]]. left. now right.
      * destruct (IH _ _ _ _ Hp Hx) as [H|[->|H]]; auto using in_cons, in_eq.
    + destruct (IH _ _ _ _ Hp Hx) as [H|H]; auto using in_cons.
Qed.

Section TitleMoreFacts.
Context {U : UnicodeData}.

Lemma isspace_space : isspace 32 = true.
Proof. reflexivity. Qed.

Lemma make_safe_filename_nil s :
  make_safe_filename s = [] <-> forallb dropped_char s = true.
Proof.
  rewrite make_safe_filename_eq. unfold strip. split.
  - intros E. apply strip_nil in E. rewrite forallb_forall in *.
    intros c Hc. unfold dropped_char. destruct (unsafe_char c) eqn:Hu; [reflexivity|].
    apply E. apply filter_In. split; [exact Hc|]. unfold safe_char. now rewrite Hu.
  - intros H. apply strip_all. rewrite forallb_forall in *.
    intros c Hc. apply filter_In in Hc as [Hc Hs]. apply H in Hc.
    unfold dropped_char in Hc. unfold safe_char in Hs.
    now destruct (unsafe_char c).
Qed.

Lemma make_safe_filename_In s x : In x (make_safe_filename s) -> In x s.
Proof.
  rewrite make_safe_filename_eq. intros H. apply strip_In in H.
  now apply filter_In in H.
Qed.

(** The pick is empty or one of the segments, trimmed. *)
Lemma choose_best_segment_pick segs :
  exists t, choose_best_segment segs = Ok t
            /\ (t = [] \/ exists seg, In seg segs /\ t = strip seg).
Proof.
  rewrite choose_best_segment_eq. eexists. split; [reflexivity|].
  destruct (sorted_reverse _ _) as [|[sc best] rest] eqn:Es; [now left|].
  right.
  assert (Hin : In (sc, best) (List.map (fun s => (spec_score s, strip s)) segs)).
  { apply (sorted_In (fun a b => pair_ltb b a)). unfold sorted_reverse in Es.
    rewrite Es. now left. }
  apply in_map_iff in Hin as [seg [E Hseg]]. injection E as _ <-. eauto.
Qed.

(** The string that reaches the last [make_safe_filename] is made of
    characters of the stem and of spaces. *)
Lemma extract_title_middle s :
  exists m,
    extract_title s
    = Ok match make_safe_filename m with
         | [] => make_safe_filename s
         | _ => make_safe_filename m
         end
    /\ forall x, In x m -> In x s \/ x = 32.
Proof.
  set (Q := fun x => In x s \/ x = 32).
  assert (Hsub : forall r repl t, (forall x, In x t -> Q x) ->
                                  (forall x, In x repl -> Q x) ->
                                  forall x, In x (Re.sub r repl t) -> Q x).
  { intros r repl t Ht Hr x Hx. apply sub_from_In in Hx as [Hx|Hx]; auto. }
  assert (Hnil : forall x, In x (@nil char) -> Q x) by (intros x []).
  assert (Hsp : forall x, In x [32] -> Q x) by (intros x [<-|[]]; now right).
  assert (H0 : forall x, In x (replace_char 95 32 s) -> Q x).
  { intros x Hx. unfold replace_char in Hx. apply in_map_iff in Hx as [y [E Hy]].
    destruct (y =? 95); subst; [now right | now left]. }
  assert (H1 : forall x, In x (strip_leading_noise (strip_brackets_and_parentheses
                 (remove_known_tags (remove_emojis (replace_char 95 32 s))))) -> Q x).
  { unfold strip_leading_noise, strip_brackets_and_parentheses, remove_known_tags,
      remove_emojis.
    repeat (apply Hsub; [|solve [exact Hnil | exact Hsp]]). exact H0. }
  assert (Hend : forall t, (forall x, In x t -> Q x) ->
            forall x, In x (strip_trailing_noise
                              (sanitize_whitespace_and_punct (remove_emojis t))) -> Q x).
  { intros t Ht. unfold strip_trailing_noise, sanitize_whitespace_and_punct, remove_emojis, strip.
    apply Hsub; [|exact Hnil]. intros x Hx. apply strip_In, strip_In in Hx.
    revert x Hx. repeat (apply Hsub; [|solve [exact Hnil | exact Hsp]]). exact Ht. }
  unfold extract_title.
  set (s1 := strip_leading_noise _) in *.
  destruct (has_separator s1).
  - destruct (choose_best_segment_pick (Re.split separator_re s1)) as [t [-> Ht]].
    cbn [bind]. eexists. split; [reflexivity|].
    apply Hend. intros x Hx. destruct Ht as [->|[seg [Hseg ->]]]; [contradiction|].
    apply strip_In in Hx.
    destruct (split_from_In _ x s1 _ _ _ _ Hseg Hx) as [H|[]]. now apply H1.
  - cbn [bind]. eexists. split; [reflexivity|].
    apply Hend. rewrite drop_caps_prefix_id. exact H1.
Qed.

(** X7.  The title is made of characters of the stem and of spaces:
    [extract_title] deletes characters and puts spaces, nothing else. *)
Theorem extract_title_invents_nothing s :
  exists t, extract_title s = Ok t /\ forall x, In x t -> In x s \/ x = 32.
Proof.
  destruct (extract_title_middle s) as [m [E Hm]].
  eexists. split; [exact E|]. intros x Hx.
  destruct (make_safe_filename m) eqn:Em.
  - left. now apply make_safe_filename_In.
  - rewrite <- Em in Hx. apply Hm. now apply make_safe_filename_In.
Qed.

(** X8.  The title is empty exactly when every character of the stem is
    one that [make_safe_filename] deletes or is whitespace. *)
Theorem extract_title_empty_iff s :
  extract_title s = Ok [] <-> forallb dropped_char s = true.
Proof.
  destruct (extract_title_middle s) as [m [E Hm]]. rewrite E. split.
  - intros H. injection H as H. apply make_safe_filename_nil.
    destruct (make_safe_filename m); [exact H | discriminate].
  - intros H. f_equal.
    assert (Em : make_safe_filename m = []).
    { apply make_safe_filename_nil. rewrite forallb_forall in *.
      intros x Hx. destruct (Hm x Hx) as [Hs| ->]; [now apply H|].
      unfold dropped_char. rewrite isspace_space. apply orb_true_r. }
    rewrite Em. now apply make_safe_filename_nil.
Qed.

(** X9.  [make_safe_filename] returns the empty string exactly when every
    character is one it deletes or is whitespace. *)
Theorem make_safe_filename_empty_iff s :
  make_safe_filename s = [] <-> forall c, In c s -> unsafe_char c = true \/ isspace c = true.
Proof.
  rewrite make_safe_filename_nil, forallb_forall. unfold dropped_char.
  split; intros H c Hc; specialize (H c Hc).
  - now apply orb_prop.
  - destruct H as [-> | ->]; [reflexivity | apply orb_true_r].
Qed.

End TitleMoreFacts.

Lemma sorted_nil {A} (ltb : A -> A -> bool) l : sorted ltb l = [] -> l = [].
Proof.
  intros E. apply (f_equal (@length A)) in E. rewrite sorted_length in E.
  now destruct l.
Qed.

(** The first element of the sorted list depends on the elements only, not
    on the order they come in. *)
Lemma sorted_head_perm {A} (ltb : A -> A -> bool) l l' :
  (forall a, ltb a a = false) ->
  (forall a b, ltb a b = true -> ltb b a = false) ->
  (forall a b c, ltb b a = false -> ltb c b = false -> ltb c a = false) ->
  (forall a b, ltb a b = false -> ltb b a = false -> a = b) ->
  Permutation l l' ->
  hd_error (sorted ltb l) = hd_error (sorted ltb l').
Proof.
  intros Hirr Hasym Htrans Hanti Hp.
  destruct (sorted ltb l) as [|h t] eqn:E, (sorted ltb l') as [|h' t'] eqn:E';
    try reflexivity.
  - apply sorted_nil in E. subst l. apply Permutation_nil in Hp. subst l'.
    discriminate.
  - apply sorted_nil in E'. subst l'. apply Permutation_sym, Permutation_nil in Hp.
    subst l. discriminate.
  - simpl. f_equal. apply Hanti.
    + apply (sorted_head_least ltb Hirr Hasym Htrans l' h' t' E').
      apply (Permutation_in _ Hp). apply (sorted_In ltb). rewrite E. now left.
    + apply (sorted_head_least ltb Hirr Hasym Htrans l h t E).
      apply (Permutation_in _ (Permutation_sym Hp)).
      apply (sorted_In ltb). rewrite E'. now left.
Qed.

Section PickFacts.
Context {U : UnicodeData}.

Lemma pair_ltb_antisym a b :
  pair_ltb a b = false -> pair_ltb b a = false -> a = b.
Proof.
  rewrite !pair_ltb_false. intros [H1 H2] [H3 H4].
  assert (E : fst a = fst b) by lia.
  destruct a as [x u], b as [y v]. simpl in *. subst y. f_equal.
  destruct (str_ltb_trichotomy u v) as [H|[H|H]]; auto.
  - rewrite H2 in H by reflexivity. discriminate.
  - rewrite H4 in H by reflexivity. discriminate.
Qed.

(** X10.  The pick of [choose_best_segment] does not depend on the order
    of the segments. *)
Theorem choose_best_segment_order_free segs segs' :
  Permutation segs segs' ->
  choose_best_segment segs = choose_best_segment segs'.
Proof.
  intros Hp. rewrite !choose_best_segment_eq. f_equal.
  assert (E : hd_error (sorted_reverse pair_ltb
                          (List.map (fun s => (spec_score s, strip s)) segs))
              = hd_error (sorted_reverse pair_ltb
                            (List.map (fun s => (spec_score s, strip s)) segs'))).
  { unfold sorted_reverse. apply sorted_head_perm.
    - intros a. apply pair_ltb_irrefl.
    - intros a b. apply pair_ltb_asym.
    - intros a b c H1 H2. now apply (pair_leb_trans c b a).
    - intros a b H1 H2. now apply pair_ltb_antisym.
    - now apply Permutation_map. }
  destruct (sorted_reverse _ _) as [|[sc b] r], (sorted_reverse _ _) as [|[sc' b'] r'];
    simpl in E; congruence.
Qed.

End PickFacts.

(** Two segments, taken in either order. *)
Lemma choose_best_segment_order_free_witness :
  choose_best_segment (U := ascii_only) [of_ascii "Intro"; of_ascii "My Great Episode"]
  = choose_best_segment (U := ascii_only) [of_ascii "My Great Episode"; of_ascii "Intro"].
Proof.
  apply (choose_best_segment_order_free (U := ascii_only)). apply perm_swap.
Defined.

(** * Further properties: the planner *)

Lemma with_name_self p : with_name p (name p) = p.
Proof. now destruct p. Qed.

(** The name a file has is never refused for it. *)
Lemma blocked_self d mapping p : blocked d mapping p (name p) = false.
Proof.
  unfold blocked. rewrite with_name_self, path_eqb_refl, andb_false_r.
  cbn [orb]. unfold planned.
  destruct (existsb _ _) eqn:E; [|reflexivity].
  apply existsb_exists in E as [sd [Hin E]].
  apply filter_In in Hin as [_ Hin]. apply andb_prop in Hin as [_ Hin].
  rewrite E in Hin. discriminate.
Qed.

(** The loop answers with the candidate it was given, or with a name
    numbered by the counter it answers with, which it has raised. *)
Lemma resolve_name d mapping p new_title ext fuel :
  forall count candidate_name count' candidate_name',
    resolve fuel d mapping p new_title ext count candidate_name
    = Ok (count', candidate_name') ->
    (count' = count /\ candidate_name' = candidate_name)
    \/ ((count < count')%nat /\ candidate_name' = numbered new_title count' ext).
Proof.
  induction fuel as [|fuel IH]; intros count cn count' cn' E; [discriminate|].
  rewrite resolve_step in E. destruct (blocked d mapping p cn).
  - apply IH in E as [[-> ->]|[H ->]]; right; split; auto; lia.
  - injection E as <- <-. now left.
Qed.

Section PlanEntries.
Context {U : UnicodeData}.

(** Every entry the outer loop adds is named after its source. *)
Lemma plan_entries d files : forall fuel mapping seen mapping',
  plan fuel d files mapping seen = Ok mapping' ->
  exists added,
    mapping' = mapping ++ added
    /\ List.map fst added = files
    /\ Forall (fun sd => named_after (fst sd) (snd sd)) added.
Proof.
  induction files as [|p files IH]; intros fuel mapping seen mapping' E.
  - injection E as <-. exists []. now rewrite app_nil_r.
  - cbn [plan] in E.
    destruct (extract_title (stem p)) as [title| |] eqn:Et; try discriminate.
    cbn [bind] in E.
    destruct (resolve fuel d mapping p title (lower (suffix_of p)) _ _)
      as [[count' cn']| |] eqn:Er; try discriminate.
    cbn [bind] in E. apply IH in E as (added & -> & Hsrc & Hall).
    exists ((p, with_name p cn') :: added).
    split; [now rewrite <- app_assoc|]. split; [simpl; now rewrite Hsrc|].
    constructor; [|exact Hall]. cbn [fst snd].
    exists title. split; [exact Et|].
    pose proof (resolve_name _ _ _ _ _ _ _ _ _ _ Er) as Hn. split.
    + destruct Hn as [[_ ->]|[Hk ->]]; [now left|].
      right. exists count'. split; [lia | reflexivity].
    + intros Esame. rewrite Esame in Er.
      destruct fuel as [|fuel]; [discriminate|].
      rewrite resolve_step, blocked_self in Er. injection Er as _ <-.
      apply with_name_self.
Qed.

Lemma discover_extension d directory recursive p :
  In p (discover d directory recursive) ->
  in_extensions (lower (suffix_of p)) = true.
Proof.
  unfold discover. intros H. apply in_map_iff in H as [e [<- He]].
  apply filter_In in He as [_ He]. now apply andb_prop in He as [_ He].
Qed.

(** X11.  With enough fuel for the inner loop, every entry of the plan
    keeps its file in its directory and names it by the cleaned title of
    the stem, alone or followed by a space and a positive counter in
    parentheses, and then by the extension of the file in lower case, which
    is one of the four of [EXTENSIONS]. *)
Theorem planning_names_destinations d directory recursive fuel :
  (2 * length d + 1 < fuel)%nat ->
  exists mapping,
    planning fuel d directory recursive = Ok mapping
    /\ forall src dst, In (src, dst) mapping ->
         parent dst = parent src
         /\ in_extensions (lower (suffix_of src)) = true
         /\ exists title,
              extract_title (stem src) = Ok title
              /\ (name dst = title ++ lower (suffix_of src)
                  \/ exists k, (0 < k)%nat
                       /\ name dst = numbered title k (lower (suffix_of src))).
Proof.
  intros Hfuel. unfold planning.
  destruct (plan_ok d (sorted path_ltb (discover d directory recursive))
              fuel [] []) as (mapping & E & _).
  - intros ? ? ? ? [].
  - intros ? ? [].
  - intros p Hp. apply sorted_In in Hp. now apply discover_on_disk in Hp.
  - rewrite sorted_length. pose proof (discover_length d directory recursive).
    simpl. lia.
  - exists mapping. split; [exact E|].
    apply plan_entries in E as (added & -> & Hsrc & Hall).
    intros src dst Hin. cbn [app] in Hin.
    assert (Hfile : In src (discover d directory recursive)).
    { apply (sorted_In path_ltb). rewrite <- Hsrc.
      apply in_map_iff. exists (src, dst). auto. }
    rewrite Forall_forall in Hall. apply Hall in Hin.
    destruct Hin as (title & Et & Hname & _). cbn [fst snd] in *.
    split; [destruct Hname as [->|(k & _ & ->)]; reflexivity|].
    split; [now apply discover_extension in Hfile|].
    exists title. split; [exact Et|].
    destruct Hname as [->|(k & Hk & ->)]; [now left|].
    right. exists k. auto.
Qed.

(** X12.  With enough fuel for the inner loop, a file whose cleaned
    title followed by its extension in lower case is the name it has is
    planned onto itself, whatever else is in the directory: its entry is
    previewed as a skip and the renaming loop passes over it, whatever the
    operating system. *)
Theorem planning_skips_clean_names d directory recursive fuel :
  (2 * length d + 1 < fuel)%nat ->
  exists mapping,
    planning fuel d directory recursive = Ok mapping
    /\ forall src dst title, In (src, dst) mapping ->
         extract_title (stem src) = Ok title ->
         title ++ lower (suffix_of src) = name src ->
         dst = src
         /\ preview_line (src, dst) = SkipSame (name src)
         /\ forall (os : OS) rest renamed,
              rename_all ((src, dst) :: rest) renamed = rename_all rest renamed.
Proof.
  intros Hfuel. unfold planning.
  destruct (plan_ok d (sorted path_ltb (discover d directory recursive))
              fuel [] []) as (mapping & E & _).
  - intros ? ? ? ? [].
  - intros ? ? [].
  - intros p Hp. apply sorted_In in Hp. now apply discover_on_disk in Hp.
  - rewrite sorted_length. pose proof (discover_length d directory recursive).
    simpl. lia.
  - exists mapping. split; [exact E|].
    apply plan_entries in E as (added & -> & _ & Hall).
    intros src dst title Hin Et Hsame. cbn [app] in Hin.
    rewrite Forall_forall in Hall. apply Hall in Hin.
    destruct Hin as (title' & Et' & _ & Hself). cbn [fst snd] in *.
    assert (title' = title) by congruence. subst title'.
    rewrite (Hself Hsame).
    split; [reflexivity|]. unfold preview_line.
    rewrite path_eqb_refl. split; [reflexivity|].
    intros os rest renamed. cbn [rename_all]. now rewrite path_eqb_refl.
Qed.

End PlanEntries.

(** X13.  Numbered names with different counters are different, and a
    numbered name is never the name without a counter. *)
Theorem numbered_names_differ base ext k k' :
  (k <> k' -> numbered base k ext <> numbered base k' ext)
  /\ numbered base k ext <> base ++ ext.
Proof.
  split.
  - intros Hne E. apply Hne. now apply (numbered_inj base ext).
  - intros E. apply (f_equal (@length char)) in E.
    unfold numbered in E. rewrite !length_app in E. simpl in E.
    unfold str, char in *. lia.
Qed.

(** * Further properties: applying the plan *)

Lemma find_app {A} (f : A -> bool) a b :
  List.find f (a ++ b)
  = match List.find f a with Some x => Some x | None => List.find f b end.
Proof.
  induction a as [|x a IH]; simpl; [reflexivity|].
  destruct (f x); [reflexivity | exact IH].
Qed.

Lemma filter_keeps_all {A} (f : A -> bool) l :
  (forall x, In x l -> f x = true) -> List.filter f l = l.
Proof.
  induction l as [|x l IH]; intros H; simpl; [reflexivity|].
  rewrite (H x) by now left. f_equal. apply IH. intros y Hy. apply H. now right.
Qed.

Lemma NoDup_map_inj_in {A B} (f : A -> B) l :
  (forall x y, In x l -> In y l -> f x = f y -> x = y) ->
  NoDup l -> NoDup (List.map f l).
Proof.
  intros Hf Hl. induction Hl as [|x l Hx _ IH]; simpl; constructor.
  - intros Hin. apply in_map_iff in Hin as [y [E Hy]].
    apply Hf in E; [subst; contradiction | now right | now left].
  - apply IH. intros a b Ha Hb. apply Hf; now right.
Qed.

Lemma NoDup_map_filter {A B} (g : A -> B) (f : A -> bool) l :
  NoDup (List.map g l) -> NoDup (List.map g (List.filter f l)).
Proof.
  induction l as [|x l IH]; simpl; intros H; [constructor|].
  inversion H as [|? ? Hx Hl]; subst.
  destruct (f x); simpl; [|now apply IH].
  constructor; [|now apply IH].
  intros Hin. apply Hx. apply in_map_iff in Hin as [y [E Hy]].
  apply filter_In in Hy as [Hy _]. apply in_map_iff. eauto.
Qed.

Lemma insert_sorted_perm {A} (ltb : A -> A -> bool) x l :
  Permutation (insert_sorted ltb x l) (x :: l).
Proof.
  induction l as [|y l IH]; simpl; [reflexivity|].
  destruct (ltb y x); [|reflexivity].
  rewrite IH. apply perm_swap.
Qed.

Lemma sorted_perm {A} (ltb : A -> A -> bool) l : Permutation (sorted ltb l) l.
Proof.
  induction l as [|x l IH]; simpl; [reflexivity|].
  rewrite insert_sorted_perm. now constructor.
Qed.

Lemma moved_miss mapping p :
  ~ In p (List.map fst mapping) -> moved mapping p = p.
Proof.
  intros H. unfold moved.
  destruct (List.find _ mapping) as [sd|] eqn:E; [|reflexivity].
  apply find_some in E as [Hin E]. apply path_eqb_eq in E.
  exfalso. apply H. rewrite <- E. now apply in_map.
Qed.

Lemma moved_hit mapping p q :
  moved mapping p = q -> In (p, q) mapping \/ (q = p /\ ~ In p (List.map fst mapping)).
Proof.
  unfold moved. destruct (List.find _ mapping) as [[s t]|] eqn:E; intros <-.
  - apply find_some in E as [Hin E]. apply path_eqb_eq in E. simpl in *.
    subst. now left.
  - right. split; [reflexivity|]. intros Hin.
    apply in_map_iff in Hin as [sd [Hs Hin]].
    apply (find_none _ _ E) in Hin. rewrite Hs, path_eqb_refl in Hin. discriminate.
Qed.

Lemma moved_snoc mapping src dst p :
  moved (mapping ++ [(src, dst)]) p
  = if existsb (fun sd => path_eqb (fst sd) p) mapping then moved mapping p
    else if path_eqb src p then dst else p.
Proof.
  unfold moved. rewrite find_app.
  destruct (List.find _ mapping) as [sd|] eqn:E.
  - apply find_some in E as [Hin E].
    assert (existsb (fun sd => path_eqb (fst sd) p) mapping = true) as ->
      by (apply existsb_exists; eauto).
    reflexivity.
  - assert (existsb (fun sd => path_eqb (fst sd) p) mapping = false) as ->.
    { destruct (existsb _ mapping) eqn:Ex; [|reflexivity].
      apply existsb_exists in Ex as [sd [Hin Hsd]].
      apply (find_none _ _ E) in Hin. congruence. }
    simpl. now destruct (path_eqb src p).
Qed.

Lemma relocate_nil e : relocate [] e = e.
Proof. now destruct e. Qed.

(** The renaming loop on a plan that is free of collisions and overwrites,
    over the disk it was made for. *)
Section RenameAll.
Variables (d0 : disk) (plan0 : list (path * path)).
Hypothesis plan_cf : collision_free plan0.
Hypothesis plan_ov : overwrites_nothing d0 plan0.
Hypothesis plan_sources : NoDup (List.map fst plan0).
Hypothesis plan_files : forall src, In src (List.map fst plan0) ->
  exists e, In e d0 /\ e_path e = src /\ e_is_file e = true.
Context {os : OS}.
Hypothesis no_refusal : forall src dst, os_rename_error src dst = None.

Lemma source_on_disk src : In src (List.map fst plan0) -> path_exists d0 src = true.
Proof.
  intros H. destruct (plan_files src H) as (e & He & <- & _).
  apply path_exists_In. now apply in_map.
Qed.

(** Nothing is ever moved onto a source. *)
Lemma moved_onto_source m rest src q :
  plan0 = m ++ rest -> In src (List.map fst plan0) ->
  In (q, src) m -> q = src.
Proof.
  intros E Hsrc Hin. symmetry. apply plan_ov.
  - rewrite E. apply in_or_app. now left.
  - now apply source_on_disk.
Qed.

Lemma rename_next m src dst rest :
  plan0 = m ++ (src, dst) :: rest -> src <> dst ->
  rename (List.map (relocate m) d0) src dst
  = Some (List.map (relocate (m ++ [(src, dst)])) d0).
Proof.
  intros E Hne.
  assert (Hin : In (src, dst) plan0) by (rewrite E; apply in_or_app; right; now left).
  assert (Hsrc : In src (List.map fst plan0)) by (apply in_map_iff; exists (src, dst); auto).
  assert (Hfresh : ~ In src (List.map fst m)).
  { rewrite E, map_app in plan_sources. simpl in plan_sources.
    apply NoDup_remove_2 in plan_sources. intros H. apply plan_sources.
    apply in_or_app. now left. }
  assert (Hm : forall sd, In sd m -> In sd plan0)
    by (intros sd H; rewrite E; apply in_or_app; now left).
  assert (Hfree : forall e, In e d0 -> moved m (e_path e) <> dst).
  { intros e He Hmv. apply moved_hit in Hmv as [Hmv|[Eq _]].
    - destruct (path_eqb (e_path e) src) eqn:Es.
      + apply path_eqb_eq in Es. apply Hfresh. rewrite <- Es.
        apply in_map_iff. exists (e_path e, dst). auto.
      + apply path_eqb_neq in Es.
        now apply (plan_cf (e_path e) dst src dst (Hm _ Hmv) Hin Es).
    - apply Hne. symmetry. apply plan_ov; [exact Hin|].
      rewrite Eq. apply path_exists_In. now apply in_map. }
  unfold rename.
  assert (C1 : existsb (fun e => path_eqb (e_path e) src && e_is_file e)
                 (List.map (relocate m) d0) = true).
  { destruct (plan_files src Hsrc) as (e & He & Ep & Ef).
    apply existsb_exists. exists (relocate m e). split; [now apply in_map|].
    unfold relocate. cbn [e_path e_is_file]. rewrite Ep, Ef.
    rewrite moved_miss by exact Hfresh. now rewrite path_eqb_refl. }
  rewrite C1. cbn [negb].
  assert (C2 : existsb (fun e => path_eqb (e_path e) dst && negb (e_is_file e))
                 (List.map (relocate m) d0) = false).
  { apply not_true_is_false. intros Ex.
    apply existsb_exists in Ex as [e' [He' Hc]].
    apply in_map_iff in He' as [e [<- He]].
    apply andb_prop in Hc as [Hc _]. apply path_eqb_eq in Hc.
    now apply (Hfree e He). }
  rewrite C2.
  assert (C3 : path_eqb src dst = false) by now apply path_eqb_neq.
  rewrite C3. f_equal.
  rewrite filter_keeps_all.
  - rewrite map_map. apply map_ext_in. intros e He.
    unfold relocate. cbn [e_path e_is_file]. rewrite moved_snoc.
    destruct (existsb (fun sd => path_eqb (fst sd) (e_path e)) m) eqn:Ex.
    + destruct (path_eqb (moved m (e_path e)) src) eqn:Es; [|reflexivity].
      exfalso. apply path_eqb_eq in Es.
      apply moved_hit in Es as [Hmv|[Eq Hmiss]].
      * assert (e_path e = src)
          by (apply (moved_onto_source m ((src, dst) :: rest)); auto).
        apply Hfresh. apply existsb_exists in Ex as [sd [Hsd Hp]].
        apply path_eqb_eq in Hp. apply in_map_iff. exists sd. split; congruence.
      * apply Hmiss. apply existsb_exists in Ex as [sd [Hsd Hp]].
        apply path_eqb_eq in Hp. apply in_map_iff. eauto.
    + assert (Hmiss : ~ In (e_path e) (List.map fst m)).
      { intros H. apply in_map_iff in H as [sd [Hs Hsd]].
        assert (existsb (fun sd => path_eqb (fst sd) (e_path e)) m = true);
          [|congruence].
        apply existsb_exists. exists sd. split; [exact Hsd|]. now apply path_eqb_eq. }
      rewrite moved_miss by exact Hmiss.
      rewrite (eq_true_iff_eq (path_eqb (e_path e) src) (path_eqb src (e_path e)))
        by (rewrite !path_eqb_eq; split; congruence).
      now destruct (path_eqb src (e_path e)).
  - intros e' He'. apply in_map_iff in He' as [e [<- He]].
    unfold relocate. cbn [e_path].
    apply negb_true_iff. apply path_eqb_neq. now apply Hfree.
Qed.

Lemma relocate_noop m src e :
  relocate (m ++ [(src, src)]) e = relocate m e.
Proof.
  unfold relocate. f_equal. rewrite moved_snoc.
  destruct (existsb _ m) eqn:Ex; [reflexivity|].
  destruct (path_eqb src (e_path e)) eqn:Es.
  - apply path_eqb_eq in Es. subst.
    symmetry. apply moved_miss. intros H. apply in_map_iff in H as [sd [Hs Hsd]].
    assert (existsb (fun sd => path_eqb (fst sd) (e_path e)) m = true);
      [|congruence].
    apply existsb_exists. exists sd. split; [exact Hsd|]. now apply path_eqb_eq.
  - symmetry. apply moved_miss. intros H. apply in_map_iff in H as [sd [Hs Hsd]].
    assert (existsb (fun sd => path_eqb (fst sd) (e_path e)) m = true);
      [|congruence].
    apply existsb_exists. exists sd. split; [exact Hsd|]. now apply path_eqb_eq.
Qed.

(** Every rename of the loop succeeds, and moves one entry, when the
    operating system refuses none. *)
Lemma rename_all_all rest : forall m w n,
  plan0 = m ++ rest -> w_disk w = List.map (relocate m) d0 ->
  rename_all rest n w
  = (World (List.map (relocate plan0) d0) (w_stdout w) (w_log w),
     Ok (n + length (to_rename rest))%nat).
Proof.
  induction rest as [|[src dst] rest IH]; intros m w n E Hw.
  - rewrite app_nil_r in E. subst m. simpl. rewrite Nat.add_0_r.
    rewrite <- Hw. now destruct w.
  - cbn [rename_all]. unfold to_rename. cbn [List.filter fst snd].
    fold (to_rename rest).
    assert (E' : plan0 = (m ++ [(src, dst)]) ++ rest) by now rewrite <- app_assoc.
    destruct (path_eqb src dst) eqn:Es; cbn [negb].
    + apply path_eqb_eq in Es. subst dst.
      apply (IH (m ++ [(src, src)])); [exact E'|].
      rewrite Hw. apply map_ext. intros e. symmetry. apply relocate_noop.
    + apply path_eqb_neq in Es. unfold rename_os.
      rewrite no_refusal, Hw, (rename_next m src dst rest E Es).
      rewrite (IH (m ++ [(src, dst)])
                 (set_disk (List.map (relocate (m ++ [(src, dst)])) d0) w)
                 (S n) E' eq_refl).
      cbn [length set_disk w_stdout w_log]. do 2 f_equal. lia.
Qed.

(** No two entries of the disk end up on the same path. *)
Lemma relocate_NoDup :
  NoDup (List.map e_path d0) ->
  NoDup (List.map e_path (List.map (relocate plan0) d0)).
Proof.
  intros Hd. rewrite map_map. cbn [relocate e_path].
  rewrite <- (map_map e_path (moved plan0)).
  apply NoDup_map_inj_in; [|exact Hd].
  intros p q Hp Hq E.
  assert (Hex : forall x, In x (List.map e_path d0) -> path_exists d0 x = true)
    by (intros x Hx; now apply path_exists_In).
  destruct (moved_hit plan0 p _ eq_refl) as [Hp'|[Ep _]];
    destruct (moved_hit plan0 q _ eq_refl) as [Hq'|[Eq _]].
  - destruct (path_eqb p q) eqn:Epq; [now apply path_eqb_eq|].
    apply path_eqb_neq in Epq. exfalso.
    now apply (plan_cf p _ q _ Hp' Hq' Epq).
  - rewrite Eq in E. rewrite E in Hp'. symmetry. apply plan_ov; [exact Hp'|].
    now apply Hex.
  - rewrite Ep in E. rewrite <- E in Hq'. apply plan_ov; [exact Hq'|].
    now apply Hex.
  - congruence.
Qed.

End RenameAll.

Lemma NoDup_fst_unique {A B} (l : list (A * B)) a b b' :
  NoDup (List.map fst l) -> In (a, b) l -> In (a, b') l -> b = b'.
Proof.
  induction l as [|[x y] l IH]; intros Hnd H1 H2; [contradiction|].
  simpl in Hnd. inversion Hnd as [|? ? Hx Hl]; subst.
  destruct H1 as [E1|H1], H2 as [E2|H2].
  - congruence.
  - injection E1 as -> ->. exfalso. apply Hx. apply in_map_iff. exists (a, b'). auto.
  - injection E2 as -> ->. exfalso. apply Hx. apply in_map_iff. exists (a, b). auto.
  - now apply IH.
Qed.

(** * The run *)

Lemma io_bind_ok {A B} (m : io A) (f : A -> io B) w w' b :
  io_bind m f w = (w', Ok b) ->
  exists w1 a, m w = (w1, Ok a) /\ f a w1 = (w', Ok b).
Proof.
  unfold io_bind. destruct (m w) as [w1 [a|e|]]; intros E; try discriminate E.
  now exists w1, a.
Qed.

Lemma io_bind_run {A B} (m : io A) (f : A -> io B) w w1 a :
  m w = (w1, Ok a) -> io_bind m f w = f a w1.
Proof. unfold io_bind. now intros ->. Qed.

Lemma keeps_disk_bind {A B} (m : io A) (f : A -> io B) :
  keeps_disk m -> (forall a, keeps_disk (f a)) -> keeps_disk (io_bind m f).
Proof.
  intros Hm Hf w. unfold io_bind. specialize (Hm w).
  destruct (m w) as [w1 [a|e|]]; cbn [fst] in *; try exact Hm.
  now rewrite Hf.
Qed.

Lemma keeps_disk_read {A} (f : disk -> result A) : keeps_disk (io_read f).
Proof. now intros w. Qed.

Lemma keeps_disk_for_each {X} (body : X -> io unit) xs :
  (forall x, keeps_disk (body x)) -> keeps_disk (for_each body xs).
Proof.
  intros Hb. induction xs as [|x xs IH]; [now intros w|].
  cbn [for_each]. apply keeps_disk_bind; auto.
Qed.

Lemma filter_filter {A} (f g : A -> bool) l :
  List.filter g (List.filter f l) = List.filter (fun x => f x && g x) l.
Proof.
  induction l as [|x l IH]; simpl; [reflexivity|].
  destruct (f x); simpl; [|exact IH]. destruct (g x); now rewrite IH.
Qed.

Lemma until_dot_In s : forall a b x,
  until_dot s = (a, Some b) -> In x b -> In x s.
Proof.
  induction s as [|c s IH]; intros a b x E Hx; simpl in E; [discriminate|].
  destruct (c =? 46).
  - injection E as _ <-. now right.
  - destruct (until_dot s) as [a' b'] eqn:Eu. injection E as _ ->.
    right. now apply (IH a' b).
Qed.

(** The stem of a name is made of characters of the name. *)
Lemma stem_In p x : In x (stem p) -> In x (name p).
Proof.
  unfold stem, stem_suffix.
  destruct (until_dot (List.rev (name p))) as [[|e ext] [[|r rest]|]] eqn:E;
    cbn [fst]; auto.
  intros Hx. apply in_rev in Hx. apply in_rev.
  now apply (until_dot_In _ _ _ _ E).
Qed.

Lemma digits_encodable u : utf8_encodable (digits u) = true.
Proof. induction u; simpl; auto. Qed.

Lemma utf8_encodable_app a b :
  utf8_encodable (a ++ b) = utf8_encodable a && utf8_encodable b.
Proof. apply forallb_app. Qed.

Lemma in_extensions_encodable ext :
  in_extensions ext = true -> utf8_encodable ext = true.
Proof.
  unfold in_extensions. intros H. apply existsb_exists in H as [e [He E]].
  unfold str_eqb in E. destruct (list_eq_dec Z.eq_dec ext e); [|discriminate].
  subst. simpl in He.
  repeat (destruct He as [<-|He]; [reflexivity|]). contradiction.
Qed.

Section RunFacts.
Context {U : UnicodeData} {os : OS}.

Lemma say_ok l w w' u : say l w = (w', Ok u) -> w' = print l w.
Proof.
  unfold say. destruct (os_print_error l); intros E; [discriminate E|].
  now injection E as <-.
Qed.

Lemma say_run l w : os_print_error l = None -> say l w = (print l w, Ok tt).
Proof. unfold say. now intros ->. Qed.

Lemma keeps_disk_say l : keeps_disk (say l).
Proof. intros w. unfold say. now destruct (os_print_error l). Qed.

Lemma for_each_say_ok {X} (f : X -> line) xs : forall w w' u,
  for_each (fun x => say (f x)) xs w = (w', Ok u) ->
  w' = World (w_disk w) (w_stdout w ++ List.map f xs) (w_log w).
Proof.
  induction xs as [|x xs IH]; intros w w' u E.
  - injection E as <-. simpl. rewrite app_nil_r. now destruct w.
  - cbn [for_each] in E. apply io_bind_ok in E as (w1 & a & E1 & E).
    apply say_ok in E1. subst w1. apply IH in E. rewrite E.
    unfold print. simpl. now rewrite <- app_assoc.
Qed.

Lemma for_each_say_run {X} (f : X -> line) xs : forall w,
  (forall l, os_print_error l = None) ->
  for_each (fun x => say (f x)) xs w
  = (World (w_disk w) (w_stdout w ++ List.map f xs) (w_log w), Ok tt).
Proof.
  induction xs as [|x xs IH]; intros w Hq.
  - simpl. rewrite app_nil_r. now destruct w.
  - cbn [for_each]. rewrite (io_bind_run _ _ _ _ _ (say_run _ w (Hq _))).
    rewrite IH by exact Hq. unfold print. simpl. now rewrite <- app_assoc.
Qed.

Lemma write_row_ok r w w' u :
  write_row r w = (w', Ok u) ->
  w' = write_log (match w_log w with
                  | Some rows => rows ++ [r]
                  | None => [r]
                  end) w.
Proof.
  unfold write_row. destruct (negb (row_encodable r)); [discriminate|].
  destruct (os_write_error r); intros E; [discriminate E|].
  now injection E as <-.
Qed.

Lemma write_row_run r w :
  row_encodable r = true -> os_write_error r = None ->
  write_row r w
  = (write_log (match w_log w with
                | Some rows => rows ++ [r]
                | None => [r]
                end) w, Ok tt).
Proof. unfold write_row. now intros -> ->. Qed.

Lemma keeps_disk_write_row r : keeps_disk (write_row r).
Proof.
  intros w. unfold write_row. destruct (negb (row_encodable r)); [reflexivity|].
  now destruct (os_write_error r).
Qed.

Lemma write_rows_ok mapping : forall rows w w' u,
  w_log w = Some rows ->
  for_each (fun sd => write_row (Row (fst sd) (snd sd))) mapping w = (w', Ok u) ->
  w' = write_log (rows ++ List.map (fun sd => Row (fst sd) (snd sd)) mapping) w.
Proof.
  induction mapping as [|sd mapping IH]; intros rows w w' u Hlog E.
  - injection E as <-. simpl. rewrite app_nil_r.
    destruct w. simpl in Hlog. now subst.
  - cbn [for_each] in E. apply io_bind_ok in E as (w1 & a & E1 & E).
    apply write_row_ok in E1. rewrite Hlog in E1. subst w1.
    apply (IH (rows ++ [Row (fst sd) (snd sd)])) in E; [|reflexivity].
    rewrite E. unfold write_log. simpl. now rewrite <- app_assoc.
Qed.

Lemma write_rows_run mapping : forall rows w,
  (forall r, os_write_error r = None) ->
  (forall sd, In sd mapping -> row_encodable (Row (fst sd) (snd sd)) = true) ->
  w_log w = Some rows ->
  for_each (fun sd => write_row (Row (fst sd) (snd sd))) mapping w
  = (write_log (rows ++ List.map (fun sd => Row (fst sd) (snd sd)) mapping) w, Ok tt).
Proof.
  induction mapping as [|sd mapping IH]; intros rows w Hq Henc Hlog.
  - simpl. rewrite app_nil_r. destruct w. simpl in Hlog. now subst.
  - cbn [for_each].
    rewrite (io_bind_run _ _ _ _ _
               (write_row_run _ w (Henc sd (or_introl eq_refl)) (Hq _))).
    rewrite Hlog.
    rewrite (IH (rows ++ [Row (fst sd) (snd sd)])); auto.
    + unfold write_log. simpl. now rewrite <- app_assoc.
    + intros sd' H. apply Henc. now right.
Qed.

Lemma save_mapping_ok mapping w w' u :
  save_mapping mapping w = (w', Ok u) -> w' = write_log (log_rows mapping) w.
Proof.
  unfold save_mapping. intros E.
  apply io_bind_ok in E as (w1 & a & E1 & E).
  unfold open_log in E1. destruct os_open_error; [discriminate E1|].
  injection E1 as <- _.
  apply io_bind_ok in E as (w2 & b & E2 & E).
  apply write_row_ok in E2. cbn [write_log w_log] in E2. subst w2.
  apply (write_rows_ok _ [Header]) in E; [|reflexivity].
  rewrite E. reflexivity.
Qed.

Lemma save_mapping_run mapping w :
  os_open_error = None -> (forall r, os_write_error r = None) ->
  (forall sd, In sd mapping -> row_encodable (Row (fst sd) (snd sd)) = true) ->
  save_mapping mapping w = (write_log (log_rows mapping) w, Ok tt).
Proof.
  intros Ho Hq Henc. unfold save_mapping.
  unfold io_bind at 1. unfold open_log. rewrite Ho.
  rewrite (io_bind_run _ _ _ _ _ (write_row_run Header _ eq_refl (Hq _))).
  cbn [write_log w_log w_disk w_stdout].
  rewrite (write_rows_run _ [Header]); auto.
Qed.

Lemma keeps_disk_save_mapping mapping : keeps_disk (save_mapping mapping).
Proof.
  unfold save_mapping. apply keeps_disk_bind.
  - intros w. unfold open_log. now destruct os_open_error.
  - intros _. apply keeps_disk_bind; [apply keeps_disk_write_row|].
    intros _. apply keeps_disk_for_each. intros sd. apply keeps_disk_write_row.
Qed.

(** ** Discovery and planning against the operating system *)

Lemma audio_files_ok listed : forall files,
  audio_files listed = Ok files ->
  files = List.map e_path
            (List.filter
               (fun e => e_is_file e && in_extensions (lower (suffix_of (e_path e))))
               listed).
Proof.
  induction listed as [|e listed IH]; intros files E.
  - now injection E as <-.
  - cbn [audio_files] in E.
    destruct (os_stat_error (e_path e)); [discriminate E|]. cbn [check bind] in E.
    destruct (audio_files listed) as [rest| |]; try discriminate E.
    cbn [bind] in E. injection E as <-. cbn [List.filter].
    rewrite (IH rest eq_refl).
    now destruct (e_is_file e && in_extensions (lower (suffix_of (e_path e)))).
Qed.

Lemma audio_files_run listed :
  (forall p, os_stat_error p = None) ->
  audio_files listed
  = Ok (List.map e_path
          (List.filter
             (fun e => e_is_file e && in_extensions (lower (suffix_of (e_path e))))
             listed)).
Proof.
  intros Hq. induction listed as [|e listed IH]; [reflexivity|].
  cbn [audio_files]. rewrite Hq, IH. cbn [check bind List.filter].
  now destruct (e_is_file e && in_extensions (lower (suffix_of (e_path e)))).
Qed.

Lemma discover_fused d directory recursive :
  discover d directory recursive
  = List.map e_path
      (List.filter
         (fun e => e_is_file e && in_extensions (lower (suffix_of (e_path e))))
         (List.filter
            (fun e => if recursive then is_prefix directory (parent (e_path e))
                      else dir_eqb directory (parent (e_path e)))
            d)).
Proof.
  unfold discover. rewrite filter_filter. f_equal. apply filter_ext.
  intros e. now rewrite andb_assoc.
Qed.

(** What the discovery finds, when it raises nothing, is what [discover]
    finds. *)
Lemma discover_os_ok d directory recursive files :
  discover_os d directory recursive = Ok files ->
  files = discover d directory recursive.
Proof.
  unfold discover_os, listing. rewrite discover_fused.
  destruct (os_listdir_error directory); [discriminate|]. cbn [check bind].
  destruct recursive.
  - cbn [bind]. apply audio_files_ok.
  - destruct (file_on_disk d directory); [discriminate|].
    destruct (negb (dir_on_disk d directory)); [discriminate|].
    cbn [bind]. apply audio_files_ok.
Qed.

Lemma discover_os_run d directory recursive :
  os_listdir_error directory = None -> (forall p, os_stat_error p = None) ->
  listable d directory recursive ->
  discover_os d directory recursive = Ok (discover d directory recursive).
Proof.
  intros Hl Hs Hd. unfold discover_os, listing. rewrite discover_fused, Hl.
  cbn [check bind]. destruct recursive.
  - cbn [bind]. now apply audio_files_run.
  - destruct Hd as [Hd|[Hf Hd]]; [discriminate|]. rewrite Hf, Hd.
    cbn [negb bind]. now apply audio_files_run.
Qed.

Lemma resolve_os_ok d mapping p new_title ext fuel : forall count candidate_name r,
  resolve_os fuel d mapping p new_title ext count candidate_name = Ok r ->
  resolve fuel d mapping p new_title ext count candidate_name = Ok r.
Proof.
  induction fuel as [|fuel IH]; intros count cn r E; [discriminate E|].
  cbn [resolve_os resolve] in *. unfold probe in E.
  destruct (os_stat_error (with_name p cn)); [discriminate E|].
  cbn [check bind] in E.
  destruct (path_exists d (with_name p cn) && negb (path_eqb (with_name p cn) p));
    [now apply IH|].
  destruct (planned mapping p (with_name p cn)); [now apply IH | exact E].
Qed.

Lemma resolve_os_run d mapping p new_title ext fuel : forall count candidate_name,
  (forall q, os_stat_error q = None) ->
  resolve_os fuel d mapping p new_title ext count candidate_name
  = resolve fuel d mapping p new_title ext count candidate_name.
Proof.
  induction fuel as [|fuel IH]; intros count cn Hq; [reflexivity|].
  cbn [resolve_os resolve]. unfold probe. rewrite Hq. cbn [check bind].
  destruct (path_exists d (with_name p cn) && negb (path_eqb (with_name p cn) p));
    [now apply IH|].
  destruct (planned mapping p (with_name p cn)); [now apply IH | reflexivity].
Qed.

(** A plan made without an exception is the plan of [plan]. *)
Lemma plan_os_ok fuel d files : forall mapping seen mapping',
  plan_os fuel d files mapping seen = Ok mapping' ->
  plan fuel d files mapping seen = Ok mapping'.
Proof.
  induction files as [|p files IH]; intros mapping seen mapping' E; [exact E|].
  cbn [plan_os plan] in *.
  destruct (extract_title (stem p)) as [title| |]; try discriminate E.
  cbn [bind] in *.
  destruct (resolve_os fuel d mapping p title _ _ _) as [[count cn]| |] eqn:Er;
    try discriminate E.
  apply resolve_os_ok in Er. rewrite Er. cbn [bind] in *. now apply IH.
Qed.

Lemma plan_os_run fuel d files : forall mapping seen,
  (forall q, os_stat_error q = None) ->
  plan_os fuel d files mapping seen = plan fuel d files mapping seen.
Proof.
  induction files as [|p files IH]; intros mapping seen Hq; [reflexivity|].
  cbn [plan_os plan].
  destruct (extract_title (stem p)) as [title| |]; try reflexivity.
  cbn [bind]. rewrite resolve_os_run by exact Hq.
  destruct (resolve fuel d mapping p title _ _ _) as [[count cn]| |];
    try reflexivity.
  cbn [bind]. now apply IH.
Qed.

(** With fuel for the inner loop, the planning returns a plan. *)
Lemma planning_returns fuel d directory recursive :
  (2 * length d + 1 < fuel)%nat ->
  exists mapping,
    planning fuel d directory recursive = Ok mapping
    /\ collision_free mapping /\ overwrites_nothing d mapping
    /\ List.map fst mapping = sorted path_ltb (discover d directory recursive).
Proof.
  intros Hfuel.
  destruct (plan_ok d (sorted path_ltb (discover d directory recursive))
              fuel [] []) as (mapping & E & Hcf & Hov & Hsrc).
  - intros ? ? ? ? [].
  - intros ? ? [].
  - intros p Hp. apply sorted_In in Hp. now apply discover_on_disk in Hp.
  - rewrite sorted_length.
    pose proof (discover_length d directory recursive). simpl. lia.
  - exists mapping. auto.
Qed.

(** ** The rows of the log can be encoded when the paths of the disk can *)

Lemma extract_title_chars s t x :
  extract_title s = Ok t -> In x t -> In x s \/ x = 32.
Proof.
  destruct (extract_title_middle s) as [m [E Hm]]. rewrite E.
  intros H Hx. injection H as <-.
  destruct (make_safe_filename m) eqn:Em.
  - left. now apply make_safe_filename_In.
  - rewrite <- Em in Hx. apply Hm. now apply make_safe_filename_In.
Qed.

Lemma title_encodable p title :
  path_encodable p = true -> extract_title (stem p) = Ok title ->
  utf8_encodable title = true.
Proof.
  unfold path_encodable. rewrite forallb_app. intros Hp E.
  apply andb_prop in Hp as [_ Hn]. cbn [forallb] in Hn.
  rewrite andb_true_r in Hn. unfold utf8_encodable in *.
  rewrite forallb_forall in *. intros x Hx.
  destruct (extract_title_chars _ _ _ E Hx) as [Hs| ->]; [|reflexivity].
  apply Hn. now apply stem_In.
Qed.

Lemma with_name_encodable p n :
  path_encodable p = true -> utf8_encodable n = true ->
  path_encodable (with_name p n) = true.
Proof.
  unfold path_encodable, with_name. cbn [parent name].
  rewrite !forallb_app. intros Hp Hn. apply andb_prop in Hp as [Hp _].
  rewrite Hp. cbn [forallb]. now rewrite Hn.
Qed.

Lemma plan_rows_encodable fuel d directory recursive mapping :
  disk_encodable d = true ->
  planning fuel d directory recursive = Ok mapping ->
  forall sd, In sd mapping -> row_encodable (Row (fst sd) (snd sd)) = true.
Proof.
  intros Hd E [src dst] Hin. unfold planning in E.
  apply plan_entries in E as (added & -> & Hsrc & Hall).
  cbn [app] in Hin. rewrite Forall_forall in Hall.
  pose proof (Hall _ Hin) as (title & Et & Hdst & _). cbn [fst snd] in *.
  assert (Hs : In src (discover d directory recursive)).
  { apply (sorted_In path_ltb). rewrite <- Hsrc. apply in_map_iff.
    exists (src, dst). auto. }
  assert (Hp : path_encodable src = true).
  { unfold discover in Hs. apply in_map_iff in Hs as [e [<- He]].
    apply filter_In in He as [He _]. unfold disk_encodable in Hd.
    rewrite forallb_forall in Hd. now apply Hd. }
  pose proof (in_extensions_encodable _ (discover_extension _ _ _ _ Hs)) as Hext.
  pose proof (title_encodable _ _ Hp Et) as Ht.
  cbn [row_encodable]. rewrite Hp. cbn [andb].
  destruct Hdst as [->|[k [_ ->]]]; apply with_name_encodable; auto.
  - rewrite utf8_encodable_app, Ht. exact Hext.
  - unfold numbered. rewrite !utf8_encodable_app, Ht, Hext.
    unfold str_of_nat. now rewrite digits_encodable.
Qed.

(** ** The renaming loop *)



(** ** The whole run *)

(** A run that returns has planned, printed the preview and written the
    log, and then done what [apply] asks. *)
Lemma main_ok fuel directory apply recursive w w' u :
  main fuel directory apply recursive w = (w', Ok u) ->
  exists mapping,
    planning fuel (w_disk w) directory recursive = Ok mapping
    /\ (if negb apply then say DryRunComplete
        else io_bind (rename_all mapping O) (fun renamed => say (RenameComplete renamed)))
         (World (w_disk w)
                (w_stdout w ++ [Found (length mapping)]
                   ++ List.map preview_line mapping ++ [MappingSaved])
                (Some (log_rows mapping)))
       = (w', Ok u).
Proof.
  unfold main. intros E.
  apply io_bind_ok in E as (w1 & files & E1 & E).
  unfold io_read in E1. injection E1 as <- E1.
  apply discover_os_ok in E1. subst files.
  apply io_bind_ok in E as (w2 & mapping & E2 & E).
  unfold io_read in E2. injection E2 as <- E2. apply plan_os_ok in E2.
  apply io_bind_ok in E as (w3 & a3 & E3 & E). apply say_ok in E3.
  apply io_bind_ok in E as (w4 & a4 & E4 & E). apply for_each_say_ok in E4.
  apply io_bind_ok in E as (w5 & a5 & E5 & E). apply save_mapping_ok in E5.
  apply io_bind_ok in E as (w6 & a6 & E6 & E). apply say_ok in E6.
  exists mapping. split; [exact E2|]. rewrite <- E. f_equal.
  subst. unfold print, write_log. cbn [w_disk w_stdout w_log].
  now rewrite <- !app_assoc.
Qed.

Lemma main_run fuel directory apply recursive w mapping :
  quiet -> listable (w_disk w) directory recursive ->
  disk_encodable (w_disk w) = true ->
  planning fuel (w_disk w) directory recursive = Ok mapping ->
  main fuel directory apply recursive w
  = (if negb apply then say DryRunComplete
     else io_bind (rename_all mapping O) (fun renamed => say (RenameComplete renamed)))
      (World (w_disk w)
             (w_stdout w ++ [Found (length mapping)]
                ++ List.map preview_line mapping ++ [MappingSaved])
             (Some (log_rows mapping))).
Proof.
  intros (Hl & Hs & Hp & Ho & Hw) Hd Henc E. unfold main.
  rewrite (io_bind_run _ _ w w (discover (w_disk w) directory recursive))
    by (unfold io_read; now rewrite discover_os_run).
  rewrite (io_bind_run _ _ w w mapping)
    by (unfold io_read; rewrite plan_os_run by exact Hs; now rewrite <- E).
  rewrite (io_bind_run _ _ _ _ _ (say_run _ w (Hp _))).
  rewrite (io_bind_run _ _ _ _ _ (for_each_say_run preview_line mapping _ Hp)).
  rewrite (io_bind_run _ _ _ _ _
             (save_mapping_run mapping _ Ho Hw
                (plan_rows_encodable _ _ _ _ _ Henc E))).
  rewrite (io_bind_run _ _ _ _ _ (say_run _ _ (Hp _))).
  f_equal. unfold print, write_log. cbn [w_disk w_stdout w_log].
  now rewrite <- !app_assoc.
Qed.

(** Without [--apply] no step of the run changes the disk. *)
Lemma keeps_disk_dry_run fuel directory recursive :
  keeps_disk (main fuel directory false recursive).
Proof.
  unfold main. apply keeps_disk_bind; [apply keeps_disk_read|]. intros files.
  apply keeps_disk_bind; [apply keeps_disk_read|]. intros mapping.
  apply keeps_disk_bind; [apply keeps_disk_say|]. intros _.
  apply keeps_disk_bind;
    [apply keeps_disk_for_each; intros sd; apply keeps_disk_say|]. intros _.
  apply keeps_disk_bind; [apply keeps_disk_save_mapping|]. intros _.
  apply keeps_disk_bind; [apply keeps_disk_say|]. intros _.
  cbn [negb]. apply keeps_disk_say.
Qed.

(** C7, as amended.  A run without [--apply] leaves the disk as it was,
    whether it returns or raises.  When it returns, it has printed the
    count, one preview line for every entry of the plan, no-ops included,
    and the two closing lines, and it has written the header and one row
    for every entry to the log.  It does return when the directory can be
    listed, no path of the disk has a character that UTF-8 cannot encode,
    and the operating system refuses no listing, [stat], [print] or write
    to the log. *)
Theorem dry_run_renames_nothing fuel directory recursive w :
  w_disk (fst (main fuel directory false recursive w)) = w_disk w
  /\ (forall w', main fuel directory false recursive w = (w', Ok tt) ->
      exists mapping,
        planning fuel (w_disk w) directory recursive = Ok mapping
        /\ w_stdout w' = w_stdout w ++ [Found (length mapping)]
                           ++ List.map preview_line mapping
                           ++ [MappingSaved; DryRunComplete]
        /\ w_log w' = Some (Header :: List.map (fun sd => Row (fst sd) (snd sd)) mapping))
  /\ (quiet -> listable (w_disk w) directory recursive ->
      disk_encodable (w_disk w) = true ->
      (2 * length (w_disk w) + 1 < fuel)%nat ->
      exists w', main fuel directory false recursive w = (w', Ok tt)).
Proof.
  split; [apply keeps_disk_dry_run|]. split.
  - intros w' E. apply main_ok in E as (mapping & Ep & E). cbn [negb] in E.
    apply say_ok in E. subst w'. exists mapping. split; [exact Ep|].
    unfold print. cbn [w_stdout w_log]. split; [|reflexivity].
    now rewrite <- !app_assoc.
  - intros Hq Hd Henc Hfuel.
    destruct (planning_returns fuel (w_disk w) directory recursive Hfuel)
      as (mapping & E & _).
    rewrite (main_run _ _ _ _ _ mapping Hq Hd Henc E). cbn [negb].
    destruct Hq as (_ & _ & Hp & _). rewrite say_run by apply Hp. eauto.
Qed.


End RunFacts.

Section ApplyAll.
Context {U : UnicodeData} {os : OS}.

Lemma discover_file d directory recursive src :
  In src (discover d directory recursive) ->
  exists e, In e d /\ e_path e = src /\ e_is_file e = true.
Proof.
  unfold discover. intros H. apply in_map_iff in H as [e [<- He]].
  apply filter_In in He as [He Hc]. exists e. split; [exact He|].
  split; [reflexivity|].
  apply andb_prop in Hc as [Hc _]. now apply andb_prop in Hc as [_ Hc].
Qed.

Lemma discover_NoDup d directory recursive :
  NoDup (List.map e_path d) -> NoDup (discover d directory recursive).
Proof. unfold discover. apply NoDup_map_filter. Qed.

(** X15.  When the operating system refuses nothing, the directory can be
    listed and no path of the disk has a character that UTF-8 cannot
    encode, a run with [--apply] on a disk whose paths are all different
    fails no rename: it prints no failure line, counts every entry that is
    not a no-op, moves every planned file onto its destination and leaves
    every other entry where it was.  No two entries end on the same path,
    so no file is overwritten or lost. *)
Theorem apply_run_renames_all fuel directory recursive w :
  quiet -> (forall src dst, os_rename_error src dst = None) ->
  listable (w_disk w) directory recursive ->
  disk_encodable (w_disk w) = true ->
  (2 * length (w_disk w) + 1 < fuel)%nat ->
  NoDup (List.map e_path (w_disk w)) ->
  exists mapping w',
    planning fuel (w_disk w) directory recursive = Ok mapping
    /\ main fuel directory true recursive w = (w', Ok tt)
    /\ w_disk w' = List.map (relocate mapping) (w_disk w)
    /\ NoDup (List.map e_path (w_disk w'))
    /\ (forall src dst, In (src, dst) mapping -> path_exists (w_disk w') dst = true)
    /\ w_stdout w' = w_stdout w ++ [Found (length mapping)]
                       ++ List.map preview_line mapping
                       ++ [MappingSaved; RenameComplete (length (to_rename mapping))].
Proof.
  intros Hq Hren Hd Henc Hfuel Hnd.
  destruct (planning_returns fuel (w_disk w) directory recursive Hfuel)
    as (mapping & E & Hcf & Hov & Hsrc).
  assert (Hsources : NoDup (List.map fst mapping)).
  { rewrite Hsrc. apply (Permutation_NoDup (Permutation_sym (sorted_perm _ _))).
    now apply discover_NoDup. }
  assert (Hfiles : forall src, In src (List.map fst mapping) ->
            exists e, In e (w_disk w) /\ e_path e = src /\ e_is_file e = true).
  { intros src Hin. rewrite Hsrc in Hin. apply sorted_In in Hin.
    now apply discover_file in Hin. }
  exists mapping.
  rewrite (main_run _ _ _ _ _ mapping Hq Hd Henc E). cbn [negb].
  assert (Hid : w_disk w = List.map (relocate []) (w_disk w)).
  { symmetry. erewrite map_ext; [apply map_id | apply relocate_nil]. }
  match goal with
  | |- context [io_bind (rename_all mapping O) _ ?w1] =>
      rewrite (io_bind_run _ _ _ _ _
                 (rename_all_all (w_disk w) mapping Hcf Hov Hsources Hfiles Hren
                    mapping [] w1 O eq_refl Hid))
  end.
  destruct Hq as (_ & _ & Hp & _). rewrite say_run by apply Hp.
  eexists. split; [exact E|]. split; [reflexivity|].
  cbn [print w_disk w_stdout w_log].
  split; [reflexivity|].
  split; [now apply relocate_NoDup|].
  split.
  - intros src dst Hin. apply path_exists_In. rewrite map_map.
    assert (Hs : In src (List.map fst mapping))
      by (apply in_map_iff; exists (src, dst); auto).
    destruct (Hfiles src Hs) as (e & He & Ep & _).
    apply in_map_iff. exists e. split; [|exact He].
    cbn [relocate e_path]. rewrite Ep.
    destruct (moved_hit mapping src _ eq_refl) as [Hm|[_ Hm]]; [|contradiction].
    now apply (NoDup_fst_unique mapping src).
  - rewrite Nat.add_0_l, <- !app_assoc. reflexivity.
Qed.

End ApplyAll.

Lemma sample_disk_NoDup : NoDup (List.map e_path sample_disk).
Proof.
  repeat constructor; simpl; intros H;
    repeat match goal with
           | H : _ \/ _ |- _ => destruct H as [H|H]
           | H : False |- _ => contradiction
           | H : _ = _ |- _ => vm_compute in H; discriminate H
           end.
Qed.

Lemma quiet_os_quiet : quiet (os := quiet_os).
Proof. unfold quiet. simpl. auto. Defined.


(** C7 as stated fails: without [--recursive], a dry run on a directory
    that does not exist raises at the listing, with nothing printed and no
    log written. *)
Lemma dry_run_on_missing_directory :
  let run := main (U := ascii_only) (os := quiet_os) 6 [of_ascii "missing"]
               false false (World sample_disk [] None) in
  snd run = Raise FileNotFoundError
  /\ w_stdout (fst run) = []
  /\ w_log (fst run) = None.
Proof. vm_compute. auto. Qed.

(** Without [--apply], on a name that is not UTF-8: the preview is
    printed, the header is written, and the first row raises. *)
Lemma dry_run_on_undecodable_name :
  let src := Path [of_ascii "music"] (0xDC80 :: of_ascii ".mp3") in
  main (U := ascii_only) (os := quiet_os) 6 [of_ascii "music"] false false
       (World surrogate_disk [] None)
  = (World surrogate_disk [Found 1; SkipSame (name src)] (Some [Header]),
     Raise UnicodeEncodeError).
Proof. vm_compute. reflexivity. Qed.

(** Without [--apply], on two names of 252 bytes that clean to the same
    title: the second candidate for the second file has 256 bytes, and
    [exists()] raises in the planning, before anything is printed. *)
Lemma dry_run_on_long_names :
  main (U := ascii_only) (os := name_max_os) 6 [of_ascii "music"] false false
       (World long_disk [] None)
  = (World long_disk [] None, Raise OSError).
Proof. vm_compute. reflexivity. Qed.

(** The sample directory, run without [--apply] with fuel 6. *)
Lemma dry_run_renames_nothing_witness :
  let w := World sample_disk [] None in
  let run := main (U := ascii_only) (os := quiet_os) 6 [of_ascii "music"] false false in
  w_disk (fst (run w)) = sample_disk
  /\ exists w' mapping,
       run w = (w', Ok tt)
       /\ planning (U := ascii_only) 6 sample_disk [of_ascii "music"] false = Ok mapping
       /\ w_stdout w' = [] ++ [Found (length mapping)]
                          ++ List.map preview_line mapping
                          ++ [MappingSaved; DryRunComplete]
       /\ w_log w' = Some (Header :: List.map (fun sd => Row (fst sd) (snd sd)) mapping).
Proof.
  intros w run.
  destruct (dry_run_renames_nothing (U := ascii_only) (os := quiet_os)
              6 [of_ascii "music"] false w) as (Hdisk & Hret & Hrun).
  split; [exact Hdisk|].
  destruct Hrun as [w' E].
  - exact quiet_os_quiet.
  - right. vm_compute. auto.
  - vm_compute. reflexivity.
  - vm_compute. lia.
  - exists w'. destruct (Hret w' E) as (mapping & H). exists mapping.
    split; [exact E | exact H].
Defined.


(** The sample directory has distinct paths; applied with fuel 6 where
    nothing is refused, every rename succeeds. *)
Lemma apply_run_renames_all_witness :
  exists mapping w',
    planning (U := ascii_only) 6 sample_disk [of_ascii "music"] false = Ok mapping
    /\ main (U := ascii_only) (os := quiet_os) 6 [of_ascii "music"] true false
            (World sample_disk [] None) = (w', Ok tt)
    /\ w_disk w' = List.map (relocate mapping) sample_disk
    /\ NoDup (List.map e_path (w_disk w'))
    /\ (forall src dst, In (src, dst) mapping -> path_exists (w_disk w') dst = true)
    /\ w_stdout w' = [] ++ [Found (length mapping)]
                       ++ List.map preview_line mapping
                       ++ [MappingSaved; RenameComplete (length (to_rename mapping))].
Proof.
  apply (apply_run_renames_all (U := ascii_only) (os := quiet_os)
           6 [of_ascii "music"] false (World sample_disk [] None)).
  - exact quiet_os_quiet.
  - reflexivity.
  - right. vm_compute. auto.
  - vm_compute. reflexivity.
  - vm_compute. lia.
  - exact sample_disk_NoDup.
Defined.

(** The sample directory, planned with fuel 6. *)
Lemma planning_names_destinations_witness :
  exists mapping,
    planning (U := ascii_only) 6 sample_disk [of_ascii "music"] false = Ok mapping
    /\ forall src dst, In (src, dst) mapping ->
         parent dst = parent src
         /\ in_extensions (lower (U := ascii_only) (suffix_of src)) = true
         /\ exists title,
              extract_title (U := ascii_only) (stem src) = Ok title
              /\ (name dst = title ++ lower (U := ascii_only) (suffix_of src)
                  \/ exists k, (0 < k)%nat
                       /\ name dst = numbered title k (lower (U := ascii_only) (suffix_of src))).
Proof.
  apply (planning_names_destinations (U := ascii_only) sample_disk
           [of_ascii "music"] false 6).
  vm_compute. lia.
Defined.

Lemma planning_skips_clean_names_witness :
  let src := Path [of_ascii "music"] (of_ascii "Episode.mp3") in
  exists mapping dst,
    planning (U := ascii_only) 6 clean_disk [of_ascii "music"] false = Ok mapping
    /\ In (src, dst) mapping
    /\ dst = src
    /\ preview_line (src, dst) = SkipSame (name src)
    /\ forall (os : OS) rest renamed,
         rename_all ((src, dst) :: rest) renamed
         = rename_all rest renamed.
Proof.
  intros src.
  destruct (planning_skips_clean_names (U := ascii_only) clean_disk
              [of_ascii "music"] false 6) as (mapping & E & Hskip);
    [vm_compute; lia|].
  exists mapping, src. split; [exact E|].
  assert (Hin : In (src, src) mapping).
  { vm_compute in E. injection E as <-. right. left. reflexivity. }
  split; [exact Hin|].
  destruct (Hskip src src (of_ascii "Episode") Hin) as (_ & Hline & Hloop);
    [reflexivity | reflexivity |].
  auto.
Defined.

(** * Further properties: segmentation and length *)

Lemma split_from_length r s : forall prev skip cur,
  (1 <= length (Re.split_from r prev skip cur s))%nat.
Proof.
  induction s as [|c s IH]; intros prev skip cur; cbn [Re.split_from].
  - simpl. lia.
  - destruct skip; [|apply IH].
    destruct (Re.match_at r prev (c :: s)) as [[|n]|]; try apply IH.
    cbn [length]. lia.
Qed.

Lemma sub_from_length r repl s :
  (length repl <= 1)%nat ->
  forall prev skip, (length (Re.sub_from r repl prev skip s) <= length s)%nat.
Proof.
  intros Hr. induction s as [|c s IH]; intros prev skip; cbn [Re.sub_from].
  - simpl. lia.
  - destruct skip as [|n].
    + destruct (Re.match_at r prev (c :: s)) as [[|n]|].
      * cbn [length]. specialize (IH (Some c) O). lia.
      * rewrite length_app. cbn [length]. specialize (IH (Some c) n). lia.
      * cbn [length]. specialize (IH (Some c) O). lia.
    + cbn [length]. specialize (IH (Some c) n). lia.
Qed.

Lemma split_from_piece_length r s : forall prev skip cur piece,
  In piece (Re.split_from r prev skip cur s) ->
  (length piece <= length cur + length s)%nat.
Proof.
  induction s as [|c s IH]; intros prev skip cur piece Hp.
  - destruct Hp as [<-|[]]. rewrite length_rev. lia.
  - cbn [Re.split_from] in Hp. cbn [length]. destruct skip as [|n].
    + destruct (Re.match_at r prev (c :: s)) as [[|n]|].
      * apply IH in Hp. cbn [length] in Hp. lia.
      * destruct Hp as [<-|Hp]; [rewrite length_rev; lia|].
        apply IH in Hp. cbn [length] in Hp. lia.
      * apply IH in Hp. cbn [length] in Hp. lia.
    + apply IH in Hp. lia.
Qed.

Lemma strip_length p s : (length (strip_with p s) <= length s)%nat.
Proof.
  destruct (strip_split p s) as [pre [post [E _]]].
  rewrite E at 2. rewrite !length_app. lia.
Qed.

Section SegmentFacts.
Context {U : UnicodeData}.

Lemma match_at_separator prev x rest :
  dash x = true ->
  Re.match_at separator_re prev (32 :: x :: 32 :: rest) = Some 3%nat.
Proof.
  intros Hx. unfold Re.match_at, separator_re, Re.one.
  change (isspace 32) with true. cbv iota.
  assert (E : (x =? 45) || (x =? 8212) || (x =? 8211) || (x =? 58) = true).
  { unfold dash in Hx. change 0x2014 with 8212 in Hx. change 0x2013 with 8211 in Hx.
    rewrite Hx. reflexivity. }
  change 0x2014 with 8212. change 0x2013 with 8211. rewrite E.
  unfold Re.accept. f_equal. cbn [length]. lia.
Qed.

Lemma startswith_separator x c s :
  startswith [32; x; 32] (c :: s) = true ->
  c = 32 /\ exists rest, s = x :: 32 :: rest.
Proof.
  cbn [startswith]. destruct s as [|a [|b rest]];
    rewrite ?andb_false_r; try discriminate.
  intros H. apply andb_prop in H as [H1 H]. apply andb_prop in H as [H2 H].
  apply andb_prop in H as [H3 _].
  apply Z.eqb_eq in H1, H2, H3. subst. eauto.
Qed.

Lemma split_on_separator x s : forall prev cur,
  dash x = true -> contains [32; x; 32] s = true ->
  (2 <= length (Re.split_from separator_re prev O cur s))%nat.
Proof.
  intros prev cur Hx. revert prev cur.
  induction s as [|c s IH]; intros prev cur H; [discriminate|].
  cbn [Re.split_from].
  destruct (Re.match_at separator_re prev (c :: s)) as [[|n]|] eqn:Em.
  - exfalso. apply (Nat.lt_irrefl 0).
    apply (ReFacts.consumes_match_at separator_re prev (c :: s));
      [apply separator_re_consumes | exact Em].
  - cbn [length]. pose proof (split_from_length separator_re s (Some c) n []). lia.
  - cbn [contains] in H. apply orb_prop in H as [H|H]; [|now apply IH].
    apply startswith_separator in H as [-> [rest ->]].
    rewrite match_at_separator in Em by exact Hx. discriminate.
Qed.

(** X16.  A string that holds a hyphen, an em dash or an en dash between
    two spaces is cut by [re.split] into at least two segments. *)
Theorem dash_separator_splits s :
  contains [32; 45; 32] s || contains [32; 0x2014; 32] s
  || contains [32; 0x2013; 32] s = true ->
  has_separator s = true /\ (2 <= length (Re.split separator_re s))%nat.
Proof.
  intros H. split.
  - unfold has_separator. now rewrite H.
  - unfold Re.split.
    apply orb_prop in H as [H|H]; [apply orb_prop in H as [H|H]|];
      eapply split_on_separator; try exact H; reflexivity.
Qed.

(** X17.  The title is never longer than the stem. *)
Theorem extract_title_not_longer s :
  exists t, extract_title s = Ok t /\ (length t <= length s)%nat.
Proof.
  assert (Hsub : forall r repl t n, (length repl <= 1)%nat -> (length t <= n)%nat ->
                                    (length (Re.sub r repl t) <= n)%nat).
  { intros r repl t n Hr Ht. pose proof (sub_from_length r repl t Hr None O).
    unfold Re.sub. lia. }
  assert (Hmsf : forall t n, (length t <= n)%nat ->
                             (length (make_safe_filename t) <= n)%nat).
  { intros t n Ht. unfold make_safe_filename, strip.
    pose proof (strip_length isspace (Re.sub (Re.one unsafe_char) [] t)).
    pose proof (Hsub (Re.one unsafe_char) [] t n). simpl in *. lia. }
  assert (H1 : (length (strip_leading_noise (strip_brackets_and_parentheses
                  (remove_known_tags (remove_emojis (replace_char 95%Z 32%Z s)))))
                <= length s)%nat).
  { unfold strip_leading_noise, strip_brackets_and_parentheses, remove_known_tags,
      remove_emojis.
    repeat (apply Hsub; [simpl; lia|]).
    unfold replace_char. rewrite length_map. apply Nat.le_refl. }
  assert (Hend : forall t, (length t <= length s)%nat ->
            (length (strip_trailing_noise
                       (sanitize_whitespace_and_punct (remove_emojis t)))
             <= length s)%nat).
  { intros t Ht. unfold strip_trailing_noise, sanitize_whitespace_and_punct, strip.
    apply Hsub; [simpl; lia|].
    etransitivity; [apply strip_length|].
    etransitivity; [apply strip_length|].
    apply Hsub; [simpl; lia|]. unfold remove_emojis. apply Hsub; [simpl; lia | exact Ht]. }
  assert (Hfinal : forall m, (length m <= length s)%nat ->
            (length match make_safe_filename m with
                    | [] => make_safe_filename s
                    | _ => make_safe_filename m
                    end <= length s)%nat).
  { intros m Hm. destruct (make_safe_filename m) eqn:Em.
    - apply Hmsf. lia.
    - rewrite <- Em. now apply Hmsf. }
  unfold extract_title.
  set (s1 := strip_leading_noise _) in *.
  destruct (has_separator s1).
  - destruct (choose_best_segment_pick (Re.split separator_re s1)) as [t [-> Ht]].
    cbn [bind]. eexists. split; [reflexivity|].
    apply Hfinal, Hend. destruct Ht as [->|[seg [Hseg ->]]]; [simpl; lia|].
    apply split_from_piece_length in Hseg. simpl in Hseg.
    pose proof (strip_length isspace seg). unfold strip. lia.
  - cbn [bind]. eexists. split; [reflexivity|].
    apply Hfinal, Hend. now rewrite drop_caps_prefix_id.
Qed.

End SegmentFacts.

(** A stem with a hyphen between spaces. *)
Lemma dash_separator_splits_witness :
  has_separator (of_ascii "Intro - Episode") = true
  /\ (2 <= length (Re.split (separator_re (U := ascii_only)) (of_ascii "Intro - Episode")))%nat.
Proof.
  apply (dash_separator_splits (U := ascii_only) (of_ascii "Intro - Episode")).
  reflexivity.
Defined.
